(** * InspIRCd reactor core: kqueue socket engine and the MySQL dispatcher

    A shallow embedding of [src/socketengine_kqueue.cpp] and of the queueing
    part of [src/modules/extra/m_mysql.cpp], with the properties of the
    specification stated over it.

    Conventions of the embedding
    - C [int] values are [Z]; the places where the source converts between
      signed and unsigned integers are written out with [to_uint]/[to_int].
    - A pointer that may be [NULL] is an [option]; following a [NULL]
      pointer, indexing a container outside its bounds and calling
      [front()] on an empty [std::deque] are undefined behaviour in C++ and
      are modelled as an explicit fault outcome: the model never invents a
      result for them.
    - System calls are the boundary with the kernel: the value a call
      returns is an input of the operation that makes it, and the change
      record handed to the kernel is appended to a log in the state.
    - Virtual callbacks ([EventHandler::HandleEvent], [SQLQuery::OnResult],
      [SQLQuery::OnError]) are recorded in a log in call order. *)

From stdpp Require Import gmap list strings pretty.
From Stdlib Require Import ZArith Lia Ascii.

Local Open Scope Z_scope.

(* ====================================================================== *)
(** * Part I: definitions                                                  *)
(* ====================================================================== *)

(** ** Integer conversions used by the sources *)

(** Conversion to [unsigned int] (32 bits). *)
Definition to_uint (z : Z) : Z := z mod 2 ^ 32.

(** Conversion to [int] (32 bits, two's complement). *)
Definition to_int (z : Z) : Z := (z + 2 ^ 31) mod 2 ^ 32 - 2 ^ 31.

(* ---------------------------------------------------------------------- *)
(** ** [socketengine_kqueue.cpp]                                           *)
(* ---------------------------------------------------------------------- *)

Module KQueue.

(** Filters and flags of [<sys/event.h>], with their FreeBSD values; the
    engine uses these six. *)
Definition EVFILT_READ  : Z := -1.
Definition EVFILT_WRITE : Z := -2.
Definition EV_ADD     : Z := 1.      (* 0x0001 *)
Definition EV_DELETE  : Z := 2.      (* 0x0002 *)
Definition EV_ONESHOT : Z := 16.     (* 0x0010 *)
Definition EV_EOF     : Z := 32768.  (* 0x8000 *)

(** [struct kevent]: the engine sets and reads [ident], [filter] and
    [flags] only ([fflags], [data] and [udata] are always 0 / NULL). *)
Record kevent := EV_SET { ident : Z; filter : Z; flags : Z }.

(** The direction passed to [HandleEvent]. *)
Inductive EventType := EVENT_READ | EVENT_WRITE | EVENT_ERROR.

#[global] Instance EventType_eq_dec : EqDecision EventType.
Proof. solve_decision. Defined.

(** What the engine uses of an [EventHandler]: its descriptor and whether
    it is registered for reading. *)
Record EventHandler := { GetFd : Z; Readable : bool }.

(** A handler callback runs on the reactor thread and may call back into the
    engine. A call carries the value its [kevent()] system call returns. *)
Inductive EngineCall :=
| CallAddFd (eh : EventHandler) (i : Z)
| CallDelFd (eh : EventHandler) (i : Z)
| CallWantWrite (eh : EventHandler) (i : Z).

(** The state of a [KQueueEngine]. [ref] is the handle table of the base
    class [SocketEngine] (an absent key is a [NULL] slot). [changes] logs the
    change records submitted to the kernel and [delivered] the
    [HandleEvent] calls made, both oldest first. *)
Record KQueueEngine := {
  ref : gmap Z EventHandler;
  CurrentSetSize : Z;
  changes : list kevent;
  delivered : list (EventHandler * EventType)
}.

Definition set_ref (f : gmap Z EventHandler → gmap Z EventHandler)
    (e : KQueueEngine) : KQueueEngine :=
  {| ref := f (ref e); CurrentSetSize := CurrentSetSize e;
     changes := changes e; delivered := delivered e |}.

Definition set_CurrentSetSize (f : Z → Z) (e : KQueueEngine) : KQueueEngine :=
  {| ref := ref e; CurrentSetSize := f (CurrentSetSize e);
     changes := changes e; delivered := delivered e |}.

(** [kevent(EngineHandle, &ke, 1, 0, 0, NULL)]: one change handed over. *)
Definition submit_change (ke : kevent) (e : KQueueEngine) : KQueueEngine :=
  {| ref := ref e; CurrentSetSize := CurrentSetSize e;
     changes := changes e ++ [ke]; delivered := delivered e |}.

Definition log_call (eh : EventHandler) (t : EventType)
    (e : KQueueEngine) : KQueueEngine :=
  {| ref := ref e; CurrentSetSize := CurrentSetSize e;
     changes := changes e; delivered := delivered e ++ [(eh, t)] |}.

(** The constructor, after a successful [kqueue()]. *)
Definition new_engine : KQueueEngine :=
  {| ref := ∅; CurrentSetSize := 0; changes := []; delivered := [] |}.

Section Engine.

(** The compile-time descriptor limit (a macro of the generated
    configuration header). *)
Variable MAX_DESCRIPTORS : Z.

Definition GetMaxFds (e : KQueueEngine) : Z := MAX_DESCRIPTORS.

Definition GetRemainingFds (e : KQueueEngine) : Z :=
  MAX_DESCRIPTORS - CurrentSetSize e.

(** [bool KQueueEngine::AddFd(EventHandler* eh)]; [i] is the value returned
    by the [kevent()] call of line 74. *)
Definition AddFd (eh : EventHandler) (i : Z) (e : KQueueEngine)
    : bool * KQueueEngine :=
  let fd := GetFd eh in
  if (fd <? 0) || (fd >? MAX_DESCRIPTORS) then (false, e)
  else if GetRemainingFds e <=? 1 then (false, e)
  else match ref e !! fd with
  | Some _ => (false, e)
  | None =>
      let e := set_ref <[fd := eh]> e in
      let ke := EV_SET fd (if Readable eh then EVFILT_READ else EVFILT_WRITE)
                       EV_ADD in
      let e := submit_change ke e in
      if i =? -1 then (false, e)
      else (true, set_CurrentSetSize Z.succ e)
  end.

(** [bool KQueueEngine::DelFd(EventHandler* eh)]; [i] is the value returned
    by the [kevent()] call of line 97. *)
Definition DelFd (eh : EventHandler) (i : Z) (e : KQueueEngine)
    : bool * KQueueEngine :=
  let fd := GetFd eh in
  if (fd <? 0) || (fd >? MAX_DESCRIPTORS) then (false, e)
  else
    let ke := EV_SET fd (if Readable eh then EVFILT_READ else EVFILT_WRITE)
                     EV_DELETE in
    let e := submit_change ke e in
    if i =? -1 then (false, e)
    else (true, set_ref (delete fd) (set_CurrentSetSize Z.pred e)).

(** [void KQueueEngine::WantWrite(EventHandler* eh)]: the result of the
    system call only selects the log message. *)
Definition WantWrite (eh : EventHandler) (i : Z) (e : KQueueEngine)
    : KQueueEngine :=
  submit_change (EV_SET (GetFd eh) EVFILT_WRITE (Z.lor EV_ADD EV_ONESHOT)) e.

(** The behaviour of the handlers' virtual [HandleEvent]: the engine calls
    each one makes, in order. *)
Variable HandleEvent : EventHandler → EventType → list EngineCall.

Definition run_call (e : KQueueEngine) (c : EngineCall) : KQueueEngine :=
  match c with
  | CallAddFd eh i => (AddFd eh i e).2
  | CallDelFd eh i => (DelFd eh i e).2
  | CallWantWrite eh i => WantWrite eh i e
  end.

(** [eh->HandleEvent(t)]. *)
Definition invoke (eh : EventHandler) (t : EventType)
    (e : KQueueEngine) : KQueueEngine :=
  foldl run_call (log_call eh t e) (HandleEvent eh t).

(** The result of a dispatch pass: it returns the number of events, or it
    follows the [NULL] pointer in slot [ref[ident]] while handling the event
    at index [j]. *)
Inductive Dispatch :=
| Returned (i : Z) (e : KQueueEngine)
| NullHandler (j : nat) (e : KQueueEngine).

(** The test [ke_list[j].flags & EVFILT_WRITE] of lines 142 and 143. *)
Definition tests_as_write (ke : kevent) : bool :=
  negb (Z.land (flags ke) EVFILT_WRITE =? 0).

(** The body of the [for] loop of [DispatchEvents] from index [j] on. *)
Fixpoint dispatch_loop (i : Z) (j : nat) (ke_list : list kevent)
    (e : KQueueEngine) : Dispatch :=
  match ke_list with
  | [] => Returned i e
  | ke :: rest =>
      if tests_as_write ke then
        let e := submit_change (EV_SET (ident ke) EVFILT_READ EV_ADD) e in
        match ref e !! ident ke with
        | None => NullHandler j e
        | Some eh => dispatch_loop i (S j) rest (invoke eh EVENT_WRITE e)
        end
      else
        match ref e !! ident ke with
        | None => NullHandler j e
        | Some eh => dispatch_loop i (S j) rest (invoke eh EVENT_READ e)
        end
  end.

(** [int KQueueEngine::DispatchEvents()] for a [kevent()] call of line 139
    that does not fail: [ke_list] holds the events it stored and their
    number is the value it returned (none and 0 on a timeout). The pass
    with the outcome of the call as a whole, the failure included, is
    [DispatchEvents_wait] below. *)
Definition DispatchEvents (ke_list : list kevent) (e : KQueueEngine)
    : Dispatch :=
  dispatch_loop (Z.of_nat (length ke_list)) 0 ke_list e.

(** Sequences of registrations and unregistrations. *)
Inductive Op :=
| OpAddFd (eh : EventHandler) (i : Z)
| OpDelFd (eh : EventHandler) (i : Z).

Definition run_op (op : Op) (e : KQueueEngine) : bool * KQueueEngine :=
  match op with
  | OpAddFd eh i => AddFd eh i e
  | OpDelFd eh i => DelFd eh i e
  end.

(** Runs [ops] in order and counts the successful registrations and the
    successful unregistrations. *)
Fixpoint run_ops (ops : list Op) (e : KQueueEngine)
    : Z * Z * KQueueEngine :=
  match ops with
  | [] => (0, 0, e)
  | op :: rest =>
      let '(ok, e') := run_op op e in
      let '(adds, dels, e'') := run_ops rest e' in
      match op with
      | OpAddFd _ _ => ((if ok then 1 else 0) + adds, dels, e'')
      | OpDelFd _ _ => (adds, (if ok then 1 else 0) + dels, e'')
      end
  end.

End Engine.

(** The number of non-empty slots of the handle table. *)
Definition occupied (e : KQueueEngine) : Z := Z.of_nat (size (ref e)).

(** How often [HandleEvent(t)] was called on a handler of descriptor [fd]. *)
Definition count_delivered (fd : Z) (t : EventType)
    (e : KQueueEngine) : nat :=
  length (base.filter (λ c, GetFd c.1 = fd ∧ c.2 = t) (delivered e)).

(** Every occupied slot holds a handler whose descriptor is the slot's
    index. *)
Definition slots_match (e : KQueueEngine) : Prop :=
  ∀ fd eh, ref e !! fd = Some eh → GetFd eh = fd.

(** The callback [DispatchEvents] selects for an event. *)
Definition selected (ke : kevent) : EventType :=
  if tests_as_write ke then EVENT_WRITE else EVENT_READ.

Section Reachable.

Variable MAX_DESCRIPTORS : Z.
Variable HandleEvent : EventHandler → EventType → list EngineCall.

(** The states of a running engine: the fresh engine, and what the four
    operations make of a state (a dispatch pass counts when it returns),
    whatever the kernel answers and whatever the handlers call back. *)
Inductive reachable : KQueueEngine → Prop :=
| reach_new : reachable new_engine
| reach_AddFd eh i e :
    reachable e → reachable (AddFd MAX_DESCRIPTORS eh i e).2
| reach_DelFd eh i e :
    reachable e → reachable (DelFd MAX_DESCRIPTORS eh i e).2
| reach_WantWrite eh i e :
    reachable e → reachable (WantWrite eh i e)
| reach_DispatchEvents ke_list e n e' :
    reachable e →
    DispatchEvents MAX_DESCRIPTORS HandleEvent ke_list e = Returned n e' →
    reachable e'.

(** What the [kevent()] call of line 139 does: it fails and returns -1, or
    it stores the ready events in [ke_list] and returns their number (0
    when it timed out). *)
Inductive Wait :=
| WaitFailed
| WaitEvents (ke_list : list kevent).

Definition wait_value (w : Wait) : Z :=
  match w with
  | WaitFailed => -1
  | WaitEvents ke_list => Z.of_nat (length ke_list)
  end.

Definition wait_events (w : Wait) : list kevent :=
  match w with
  | WaitFailed => []
  | WaitEvents ke_list => ke_list
  end.

(** [int KQueueEngine::DispatchEvents()]: [i] is the value of the call, the
    loop handles the events below index [i], and [i] is returned. *)
Definition DispatchEvents_wait (w : Wait) (e : KQueueEngine) : Dispatch :=
  dispatch_loop MAX_DESCRIPTORS HandleEvent (wait_value w) 0 (wait_events w) e.




(** A sequence of operations in which the kernel accepts every insertion
    and no removal succeeds for a descriptor whose slot is empty. *)
Fixpoint tame (ops : list Op) (e : KQueueEngine) : Prop :=
  match ops with
  | [] => True
  | op :: rest =>
      match op with
      | OpAddFd eh i => i ≠ -1
      | OpDelFd eh i =>
          (DelFd MAX_DESCRIPTORS eh i e).1 = true →
          is_Some (ref e !! GetFd eh)
      end
      ∧ tame rest (run_op MAX_DESCRIPTORS op e).2
  end.

End Reachable.

End KQueue.

(* ---------------------------------------------------------------------- *)
(** ** [modules/extra/m_mysql.cpp]                                         *)
(* ---------------------------------------------------------------------- *)

Module MySQL.

(** The error codes and the error value of the SQL interface header. *)
Inductive SQLerrorNum :=
| SQL_NO_ERROR | SQL_BAD_DBID | SQL_BAD_CONN | SQL_QSEND_FAIL | SQL_QREPLY_FAIL.

#[global] Instance SQLerrorNum_eq_dec : EqDecision SQLerrorNum.
Proof. solve_decision. Defined.

Record SQLerror := { id : SQLerrorNum; str : string }.

(** A cell of a result: [SQLEntry()] is the empty (SQL NULL) entry and
    [SQLEntry(v)] holds the text [v]. *)
Record SQLEntry := { value : string; nul : bool }.

Definition SQLEntry_null : SQLEntry := {| value := ""; nul := true |}.
Definition SQLEntry_of (v : string) : SQLEntry := {| value := v; nul := false |}.

Abbreviation SQLEntries := (list SQLEntry).

(** [v[i]] on a [std::vector] or [std::deque]: defined inside the bounds
    only ([None] stands for the undefined access outside). *)
Definition at_index {A} (v : list A) (i : Z) : option A :=
  if (i <? 0) || (Z.of_nat (length v) <=? i) then None else v !! Z.to_nat i.

(** What the MySQL client library hands to the constructor for a result
    handle: the column count [mysql_num_fields], the column descriptors
    [mysql_fetch_fields] (their names; the array or a name may be [NULL])
    and the rows [mysql_fetch_row] returns one by one, each an array of
    [mysql_num_fields] cells that may be [NULL]. *)
Record MYSQL_RES := {
  mysql_num_fields : Z;
  mysql_fetch_fields : option (nat → option string);
  mysql_fetch_row : list (nat → option string)
}.

(** [class MySQLresult]. *)
Record MySQLresult := {
  err : SQLerror;
  currentrow : Z;
  rows : Z;
  colnames : list string;
  fieldlists : list SQLEntries
}.

(** [fieldlists[n].push_back(x)]. *)
Definition push_back_at (n : nat) (x : SQLEntry) (fl : list SQLEntries)
    : option (list SQLEntries) :=
  match fl !! n with
  | Some row => Some (<[n := row ++ [x]]> fl)
  | None => None
  end.

(** The inner [while (field_count < mysql_num_fields(res))] loop of the
    constructor (lines 159 to 168) for the columns [cols]. *)
Fixpoint push_fields (fields row : nat → option string) (n : nat)
    (cols : list nat) (r : MySQLresult) : option MySQLresult :=
  match cols with
  | [] => Some r
  | field_count :: cols =>
      let a := default "" (fields field_count) in
      let x := match row field_count with
               | Some s => SQLEntry_of s
               | None => SQLEntry_null
               end in
      fl ← push_back_at n x (fieldlists r);
      push_fields fields row n cols
        {| err := err r; currentrow := currentrow r; rows := rows r;
           colnames := colnames r ++ [a]; fieldlists := fl |}
  end.

(** The [while ((row = mysql_fetch_row(res)))] loop (lines 146 to 172);
    [n] is the local row index. *)
Fixpoint fetch_rows (res : MYSQL_RES) (fetched : list (nat → option string))
    (n : nat) (r : MySQLresult) : option MySQLresult :=
  match fetched with
  | [] => Some r
  | row :: fetched =>
      let fl :=
        if Z.of_nat (length (fieldlists r)) <? to_uint (to_uint (rows r) + 1)
        then fieldlists r ++ [[]] else fieldlists r in
      let r := {| err := err r; currentrow := currentrow r; rows := rows r;
                  colnames := colnames r; fieldlists := fl |} in
      if mysql_num_fields res =? 0 then Some r
      else
        let bump (r : MySQLresult) :=
          {| err := err r; currentrow := currentrow r; rows := rows r + 1;
             colnames := colnames r; fieldlists := fieldlists r |} in
        match mysql_fetch_fields res with
        | Some fields =>
            r ← push_fields fields row n
                  (seq 0 (Z.to_nat (mysql_num_fields res)))
                  {| err := err r; currentrow := currentrow r;
                     rows := rows r; colnames := [];
                     fieldlists := fieldlists r |};
            fetch_rows res fetched (S n) (bump r)
        | None => fetch_rows res fetched n (bump r)
        end
  end.

(** [MySQLresult(MYSQL_RES* res, int affected_rows)]. *)
Definition MySQLresult_new (res : option MYSQL_RES) (affected_rows : Z)
    : option MySQLresult :=
  let r := {| err := {| id := SQL_NO_ERROR; str := "" |};
              currentrow := 0; rows := 0; colnames := [];
              fieldlists := [] |} in
  let r := if 1 <=? affected_rows
           then {| err := err r; currentrow := 0; rows := affected_rows;
                   colnames := [];
                   fieldlists := replicate (Z.to_nat affected_rows) [] |}
           else r in
  match res with
  | Some res => fetch_rows res (mysql_fetch_row res) 0 r
  | None => Some r
  end.

(** [MySQLresult(SQLerror& e)]: only [err] is initialised; [currentrow] and
    [rows] are whatever the storage holds. *)
Definition MySQLresult_error (e : SQLerror) (currentrow0 rows0 : Z)
    : MySQLresult :=
  {| err := e; currentrow := currentrow0; rows := rows0;
     colnames := []; fieldlists := [] |}.

Definition Rows (r : MySQLresult) : Z := rows r.

(** [SQLEntry GetValue(int row, int column)]; [&&] evaluates left to right
    and stops at the first false operand. *)
Definition GetValue (r : MySQLresult) (row column : Z) : option SQLEntry :=
  if (0 <=? row) && (row <? rows r) && (0 <=? column) then
    cells ← at_index (fieldlists r) row;
    if column <? to_int (Z.of_nat (length cells))
    then at_index cells column
    else Some SQLEntry_null
  else Some SQLEntry_null.

(** [bool GetRow(SQLEntries& result)]: the returned flag, the contents of
    [result] afterwards and the object afterwards. *)
Definition GetRow (r : MySQLresult)
    : option (bool * SQLEntries * MySQLresult) :=
  if currentrow r <? rows r then
    cells ← at_index (fieldlists r) (currentrow r);
    Some (true, cells,
          {| err := err r; currentrow := currentrow r + 1; rows := rows r;
             colnames := colnames r; fieldlists := fieldlists r |})
  else Some (false, [], r).

(** [k] successive [GetRow] calls: the flag and output of each. *)
Fixpoint GetRow_times (k : nat) (r : MySQLresult)
    : option (list (bool * SQLEntries)) :=
  match k with
  | O => Some []
  | S k =>
      '(ok, cells, r) ← GetRow r;
      rest ← GetRow_times k r;
      Some ((ok, cells) :: rest)
  end.

(** The cell stored at a position and the width of a stored row. *)
Definition stored (r : MySQLresult) (row column : Z) : option SQLEntry :=
  cells ← at_index (fieldlists r) row; at_index cells column.

Definition width (r : MySQLresult) (row : Z) : Z :=
  Z.of_nat (length (default [] (at_index (fieldlists r) row))).

(** The inputs for which the [int] counters of the constructor do not
    overflow and the [(int)] conversion of a row's width in [GetValue] is
    exact: fewer than 2^31 columns, and fewer than 2^31 rows in all. *)
Definition fits_int (res : option MYSQL_RES) (affected_rows : Z) : Prop :=
  match res with
  | Some res =>
      0 <= mysql_num_fields res < 2 ^ 31
      ∧ Z.max affected_rows 0 + Z.of_nat (length (mysql_fetch_row res))
        < 2 ^ 31
  | None => True
  end.

(** What the constructor's row loop maintains: [n] rows are filled, the
    slots from [n] on are empty, and there are at least [rows] slots. *)
Record filling (numf : nat) (n : nat) (r : MySQLresult) : Prop := {
  filling_current : currentrow r = 0;
  filling_n : Z.of_nat n <= rows r;
  filling_rows : rows r <= Z.of_nat (length (fieldlists r));
  filling_width : ∀ k cells,
    fieldlists r !! k = Some cells → (length cells ≤ numf)%nat;
  filling_empty : ∀ k cells,
    (n ≤ k)%nat → fieldlists r !! k = Some cells → cells = []
}.

(** What the accessors rely on. *)
Record materialized (r : MySQLresult) : Prop := {
  mat_current : currentrow r = 0;
  mat_rows : 0 <= rows r <= Z.of_nat (length (fieldlists r));
  mat_width : ∀ k cells,
    fieldlists r !! k = Some cells → Z.of_nat (length cells) < 2 ^ 31
}.

(** An [SQLQuery*]: the address of the object and the module that created
    it. A connection is known by its address. *)
Record SQLQuery := { addr : nat; creator : nat }.

Abbreviation SQLConnection := nat.

Record QQueueItem := { q : SQLQuery; query : string; c : SQLConnection }.

Record RQueueItem := { rq_q : SQLQuery; r : MySQLresult }.

(** The virtual callbacks of an [SQLQuery], as made on the reactor thread. *)
Inductive Callback :=
| OnResult (q : SQLQuery) (res : MySQLresult)
| OnError (q : SQLQuery) (e : SQLerror).

(** The queues of [ModuleSQL] and the callbacks made so far, oldest
    first. *)
Record ModuleSQL := {
  qq : list QQueueItem;
  rq : list RQueueItem;
  callbacks : list Callback
}.

(** [SQLConnection::submit(SQLQuery* q, const std::string& qs)]. *)
Definition submit (q : SQLQuery) (qs : string) (this : SQLConnection)
    (m : ModuleSQL) : ModuleSQL :=
  {| qq := qq m ++ [{| q := q; query := qs; c := this |}];
     rq := rq m; callbacks := callbacks m |}.

(** [qq[j].q->OnError(err); delete qq[j].q; qq.erase(qq.begin() + j)]. *)
Definition fail_and_erase (j : nat) (item : QQueueItem) (m : ModuleSQL)
    : ModuleSQL :=
  {| qq := delete j (qq m); rq := rq m;
     callbacks := callbacks m
       ++ [OnError (q item) {| id := SQL_BAD_DBID; str := "" |}] |}.

(** The scan of [ModuleSQL::OnRehash] over the queued queries of one
    withdrawn connection (lines 429 to 437):
    [for (unsigned int j = qq.size() - 1; j >= 0; j--)]. *)
Record Scan := { j : Z; module : ModuleSQL }.

Definition scan_start (m : ModuleSQL) : Scan :=
  {| j := to_uint (Z.of_nat (length (qq m)) - 1); module := m |}.

(** One pass through the loop: the test [j >= 0] holds for every
    [unsigned int], so a pass always enters the body, which indexes
    [qq[j]]. *)
Inductive ScanStep :=
| Next (s : Scan)
| OutOfRange (s : Scan).

Definition scan_pass (conn : SQLConnection) (s : Scan) : ScanStep :=
  match at_index (qq (module s)) (j s) with
  | None => OutOfRange s
  | Some item =>
      let m := if decide (c item = conn)
               then fail_and_erase (Z.to_nat (j s)) item (module s)
               else module s in
      Next {| j := to_uint (j s - 1); module := m |}
  end.

Fixpoint scan_passes (k : nat) (conn : SQLConnection) (s : Scan) : ScanStep :=
  match k with
  | O => Next s
  | S k =>
      match scan_pass conn s with
      | Next s => scan_passes k conn s
      | OutOfRange s => OutOfRange s
      end
  end.

(** [DispatcherThread::OnNotify()]. *)
Definition deliver (cbs : list Callback) (i : RQueueItem) : list Callback :=
  cbs ++ [if decide (id (err (r i)) = SQL_NO_ERROR)
          then OnResult (rq_q i) (r i)
          else OnError (rq_q i) (err (r i))].

Definition OnNotify (m : ModuleSQL) : ModuleSQL :=
  {| qq := qq m; rq := []; callbacks := foldl deliver (callbacks m) (rq m) |}.

(** [ModuleSQL::OnUnloadModule(Module* mod)]: the [while (i > 0)] loop over
    the queue from the back, with [unsigned int i = qq.size()] as its start,
    then the drain of the result queue. The wait on the connection's lock at
    index 0 changes no queue. *)
Fixpoint unload_loop (i : nat) (mod_ : nat) (m : ModuleSQL)
    : option ModuleSQL :=
  match i with
  | O => Some m
  | S i =>
      item ← qq m !! i;
      unload_loop i mod_
        (if decide (creator (q item) = mod_) then fail_and_erase i item m
         else m)
  end.

Definition OnUnloadModule (mod_ : nat) (m : ModuleSQL) : option ModuleSQL :=
  OnNotify
    <$> unload_loop (Z.to_nat (to_uint (Z.of_nat (length (qq m))))) mod_ m.

(** [DispatcherThread::Run()], one turn of its loop with a non-empty queue,
    split where the queue lock is released: [Run_take] is lines 482 to 486
    (the job stays at the front of the queue while it runs), and
    [Run_finish] is lines 496 to 507, given the result [res] of
    [DoBlockingQuery]. In between, the reactor thread may run [submit],
    [OnUnloadModule] or [OnNotify]. *)
Definition Run_take (m : ModuleSQL) : option QQueueItem := head (qq m).

Inductive Finish :=
| Posted (m : ModuleSQL)
| Dropped (m : ModuleSQL)
| FrontOfEmptyQueue.

Definition Run_finish (i : QQueueItem) (res : MySQLresult) (m : ModuleSQL)
    : Finish :=
  match qq m with
  | [] => FrontOfEmptyQueue
  | front :: rest =>
      if decide (addr (q front) = addr (q i))
      then Posted {| qq := rest;
                     rq := rq m ++ [{| rq_q := q i; r := res |}];
                     callbacks := callbacks m |}
      else Dropped m
  end.

(** [void GetCols(std::vector<std::string>& result)]: the contents of
    [result] afterwards. *)
Definition GetCols (r : MySQLresult) : list string := colnames r.

(** The entry the constructor stores for a cell of a fetched row
    (lines 162 to 165). *)
Definition entry_of_cell (cell : option string) : SQLEntry :=
  match cell with
  | Some s => SQLEntry_of s
  | None => SQLEntry_null
  end.

(** What the client library does during one [DoBlockingQuery]: whether
    [CheckConnection()] succeeds, what [mysql_real_query] returns (0 on
    success), the handle of [mysql_use_result], the [unsigned long] read
    from [mysql_affected_rows], and the error number and text; and the two
    [int] members that the error constructor leaves unset. *)
Record QueryRun := {
  CheckConnection : bool;
  mysql_real_query : Z;
  mysql_use_result : option MYSQL_RES;
  mysql_affected_rows : Z;
  mysql_errno : N;
  mysql_error : string;
  unset_currentrow : Z;
  unset_rows : Z
}.

(** [MySQLresult* SQLConnection::DoBlockingQuery(const std::string&)]. *)
Definition DoBlockingQuery (run : QueryRun) : option MySQLresult :=
  if CheckConnection run && (mysql_real_query run =? 0) then
    MySQLresult_new (mysql_use_result run) (to_int (mysql_affected_rows run))
  else
    Some (MySQLresult_error
            {| id := SQL_QREPLY_FAIL;
               str := pretty (mysql_errno run) +:+ ": " +:+ mysql_error run |}
            (unset_currentrow run) (unset_rows run)).

(** The dispatcher thread and the reactor thread, interleaved at the points
    where the queue lock changes hands. [in_flight] is the local [i] of
    [Run] between its two locked parts. *)
Record System := { sql : ModuleSQL; in_flight : option QQueueItem }.

Inductive Step :=
| DoSubmit (q : SQLQuery) (qs : string) (conn : SQLConnection)
| DoNotify
| DoTake
| DoFinish (res : MySQLresult).

(** One step; [None] is the call of [front()] on an empty queue. A worker
    step that is not the worker's next one leaves the system as it is. *)
Definition step (w : System) (s : Step) : option System :=
  match s with
  | DoSubmit q qs conn =>
      Some {| sql := submit q qs conn (sql w); in_flight := in_flight w |}
  | DoNotify => Some {| sql := OnNotify (sql w); in_flight := in_flight w |}
  | DoTake =>
      match in_flight w with
      | Some _ => Some w
      | None => Some {| sql := sql w; in_flight := Run_take (sql w) |}
      end
  | DoFinish res =>
      match in_flight w with
      | None => Some w
      | Some i =>
          match Run_finish i res (sql w) with
          | Posted m => Some {| sql := m; in_flight := None |}
          | Dropped m => Some {| sql := m; in_flight := None |}
          | FrontOfEmptyQueue => None
          end
      end
  end.

Fixpoint run_steps (w : System) (steps : list Step) : option System :=
  match steps with
  | [] => Some w
  | s :: steps => w ← step w s; run_steps w steps
  end.

(** The jobs a schedule submits, in order. *)
Definition submitted (steps : list Step) : list QQueueItem :=
  omap (λ s, match s with
             | DoSubmit q qs conn => Some {| q := q; query := qs; c := conn |}
             | _ => None
             end) steps.

(** The query a callback is made on. *)
Definition callback_query (cb : Callback) : SQLQuery :=
  match cb with OnResult q _ => q | OnError q _ => q end.

(** The queries whose result has been posted: those already called back,
    then those waiting in the result queue. *)
Definition answered (m : ModuleSQL) : list SQLQuery :=
  (callback_query <$> callbacks m) ++ (rq_q <$> rq m).

(** The cells and the column names the constructor makes of a row. *)
Definition cells_of (res : MYSQL_RES) (row : nat → option string)
    : SQLEntries :=
  (λ k, entry_of_cell (row k)) <$> seq 0 (Z.to_nat (mysql_num_fields res)).

Definition names_of (res : MYSQL_RES) (fields : nat → option string)
    : list string :=
  (λ k, default "" (fields k)) <$> seq 0 (Z.to_nat (mysql_num_fields res)).

(** *** Queries with parameters *)

Section Submit.

(** The size of the escape buffer ([MAXBUF], a macro of the configuration
    header) and the client library's [mysql_escape_string]: the text it
    writes for a parameter, which it ends with a NUL. *)
Variable MAXBUF : Z.
Variable mysql_escape_string : string → string.

(** The C library's [isalnum]. *)
Variable isalnum : Ascii.ascii → bool.

(** [char buffer[MAXBUF]; mysql_escape_string(buffer, parm.c_str(),
    parm.length()); res.append(buffer)]: the text appended, or [None] when
    the text and its NUL do not fit into the buffer. *)
Definition escaped (parm : string) : option string :=
  let text := mysql_escape_string parm in
  if Z.of_nat (String.length text) <? MAXBUF then Some text else None.

(** The loop of [submit(SQLQuery*, const std::string&, const ParamL&)]
    (lines 318 to 333) over the rest [q] of the query; [param] is an
    [unsigned int], and [p[param++]] is read when [param < p.size()]. *)
Fixpoint expand_list (q : string) (p : list string) (param : Z)
    (res : string) : option string :=
  match q with
  | EmptyString => Some res
  | String ch q =>
      if decide (ch ≠ "?"%char) then
        expand_list q p param (res +:+ String ch "")
      else
        match at_index p param with
        | Some parm =>
            text ← escaped parm;
            expand_list q p (to_uint (param + 1)) (res +:+ text)
        | None => expand_list q p param res
        end
  end.

Definition submit_list (call : SQLQuery) (q : string) (p : list string)
    (this : SQLConnection) (m : ModuleSQL) : option ModuleSQL :=
  res ← expand_list q p 0 "";
  Some (submit call res this m).

(** The loop of [submit(SQLQuery*, const std::string&, const ParamM&)]
    (lines 340 to 361) over the rest [q] of the query; the inner loop
    collects the name after a [$] and hands the rest of the query, from
    the first character that is not alphanumeric, back to the outer loop. *)
Fixpoint expand_map (q : string) (p : gmap string string)
    (res : string) : option string :=
  match q with
  | EmptyString => Some res
  | String ch q =>
      if decide (ch ≠ "$"%char) then
        expand_map q p (res +:+ String ch "")
      else
        (fix field_loop (t : string) (field : string) : option string :=
           let done_ (t : option string) :=
             match p !! field with
             | Some parm =>
                 text ← escaped parm;
                 match t with
                 | Some t => expand_map t p (res +:+ text)
                 | None => Some (res +:+ text)
                 end
             | None =>
                 match t with
                 | Some t => expand_map t p res
                 | None => Some res
                 end
             end in
           match t with
           | EmptyString => done_ None
           | String d t' =>
               if isalnum d then field_loop t' (field +:+ String d "")
               else done_ (Some t)
           end) q ""
  end.

Definition submit_map (call : SQLQuery) (q : string) (p : gmap string string)
    (this : SQLConnection) (m : ModuleSQL) : option ModuleSQL :=
  res ← expand_map q p "";
  Some (submit call res this m).

(** A name: alphanumeric characters only. *)
Fixpoint alnum (s : string) : Prop :=
  match s with
  | EmptyString => True
  | String a s => isalnum a = true ∧ alnum s
  end.

(** Where a name ends: at the end of the query or before a character that
    is not alphanumeric. *)
Definition ends_name (rest : string) : Prop :=
  match rest with
  | EmptyString => True
  | String d _ => isalnum d = false
  end.

End Submit.

(** The text between the placeholders, with the arguments put in between:
    the i-th argument after the i-th piece, nothing where the arguments
    have run out. *)
Fixpoint weave (pieces : list string) (args : list string) : string :=
  match pieces with
  | [] => ""
  | [piece] => piece
  | piece :: pieces =>
      piece +:+ default "" (head args) +:+ weave pieces (tail args)
  end.

(** A text in which the character [ch] does not occur. *)
Fixpoint lacks (ch : Ascii.ascii) (s : string) : Prop :=
  match s with
  | EmptyString => True
  | String a s => a ≠ ch ∧ lacks ch s
  end.

(** *** The configured databases *)

(** A [<database>] tag, by what the two reads of [OnRehash] return:
    [getString("module", "mysql")] and [getString("id")]. *)
Record ConfigTag := { tag_module : string; tag_id : string }.

Inductive ServiceCall :=
| AddService (conn : SQLConnection)
| DelService (conn : SQLConnection).

(** The first loop of [ModuleSQL::OnRehash] (lines 398 to 417): the local
    [conns], the member [connections], the address the next
    [new SQLConnection] gets and the services announced so far. *)
Record Rehash := {
  conns : gmap string SQLConnection;
  connections : gmap string SQLConnection;
  next_connection : SQLConnection;
  services : list ServiceCall
}.

(** [std::map::insert]: no effect when the key is present. *)
Definition map_insert_new (k : string) (v : SQLConnection)
    (m : gmap string SQLConnection) : gmap string SQLConnection :=
  match m !! k with
  | Some _ => m
  | None => <[k := v]> m
  end.

Definition rehash_tag (st : Rehash) (tag : ConfigTag) : Rehash :=
  if decide (tag_module tag ≠ "mysql") then st
  else
    let id := tag_id tag in
    match connections st !! id with
    | None =>
        let conn := next_connection st in
        {| conns := map_insert_new id conn (conns st);
           connections := connections st;
           next_connection := S conn;
           services := services st ++ [AddService conn] |}
    | Some curr =>
        {| conns := map_insert_new id curr (conns st);
           connections := delete id (connections st);
           next_connection := next_connection st;
           services := services st |}
    end.

Definition OnRehash_tags (tags : list ConfigTag)
    (connections0 : gmap string SQLConnection) (next : SQLConnection)
    : Rehash :=
  foldl rehash_tag
    {| conns := ∅; connections := connections0; next_connection := next;
       services := [] |} tags.

(** An id that some MySQL [<database>] tag of the list carries. *)
Definition configured (tags : list ConfigTag) (id : string) : Prop :=
  ∃ tag, tag ∈ tags ∧ tag_module tag = "mysql" ∧ tag_id tag = id.

(** The jobs [all] in submission order: the first [k] are answered, in
    order, the others are queued, in order, and a job in flight is the one
    at the front of the queue. *)
Definition in_order (all : list QQueueItem) (w : System) : Prop :=
  ∃ k, (k ≤ length all)%nat
       ∧ answered (sql w) = q <$> take k all
       ∧ qq (sql w) = drop k all
       ∧ (in_flight w = None ∨ in_flight w = head (qq (sql w))).

Definition start : System :=
  {| sql := {| qq := []; rq := []; callbacks := [] |}; in_flight := None |}.

End MySQL.

(* ---------------------------------------------------------------------- *)
(** ** Concrete handlers, events and queries used in the examples          *)
(* ---------------------------------------------------------------------- *)

Module Examples.
Import KQueue.

Definition h3 : EventHandler := {| GetFd := 3; Readable := true |}.
Definition h4 : EventHandler := {| GetFd := 4; Readable := true |}.
Definition h5 : EventHandler := {| GetFd := 5; Readable := true |}.

(** Handlers that call nothing back. *)
Definition quiet (eh : EventHandler) (t : EventType) : list EngineCall := [].

(** The handler of descriptor 3 closes the connection on descriptor 4 when
    it is told that 3 is readable; the kernel accepts the removal. *)
Definition closes_4 (eh : EventHandler) (t : EventType) : list EngineCall :=
  if decide (GetFd eh = 3 ∧ t = EVENT_READ) then [CallDelFd h4 0] else [].





(** Every handler closes its own connection when it is told that its
    descriptor is readable. *)
Definition closes_itself (eh : EventHandler) (t : EventType)
    : list EngineCall :=
  if decide (t = EVENT_READ) then [CallDelFd eh 0] else [].

(** An engine for 1024 descriptors with 3 and 4 registered. *)
Definition two_registered : KQueueEngine :=
  (AddFd 1024 h4 0 (AddFd 1024 h3 0 new_engine).2).2.

(** An engine for 1024 descriptors with 5 registered. *)
Definition one_registered : KQueueEngine := (AddFd 1024 h5 0 new_engine).2.

(** The same engine after a pass that told descriptor 3 it is readable. *)
Definition two_registered_ready : KQueueEngine :=
  match DispatchEvents 1024 quiet [EV_SET 3 EVFILT_READ 0] two_registered with
  | Returned _ e => e
  | NullHandler _ e => e
  end.

(** The engine state a dispatch pass ends in, however it ends. *)
Definition engine_of (d : Dispatch) : KQueueEngine :=
  match d with Returned _ e => e | NullHandler _ e => e end.

(** A job queue with three jobs of module 9: the first and the last for the
    connection 7, the second for the connection 8. *)
Definition scan_demo : MySQL.ModuleSQL :=
  {| MySQL.qq :=
       [ {| MySQL.q := {| MySQL.addr := 1; MySQL.creator := 9 |};
            MySQL.query := "a"; MySQL.c := 7%nat |};
         {| MySQL.q := {| MySQL.addr := 2; MySQL.creator := 9 |};
            MySQL.query := "b"; MySQL.c := 8%nat |};
         {| MySQL.q := {| MySQL.addr := 3; MySQL.creator := 9 |};
            MySQL.query := "c"; MySQL.c := 7%nat |} ];
     MySQL.rq := []; MySQL.callbacks := [] |}.

(** The rows of [SELECT nick, host] on a table of two users, the second
    with a NULL host, as [mysql_use_result] hands them over. *)
Definition two_users : MySQL.MYSQL_RES :=
  {| MySQL.mysql_num_fields := 2;
     MySQL.mysql_fetch_fields :=
       Some (λ k, match k with
                  | O => Some "nick" | 1%nat => Some "host" | _ => None
                  end);
     MySQL.mysql_fetch_row :=
       [ (λ k, match k with
               | O => Some "alice" | 1%nat => Some "example.org" | _ => None
               end);
         (λ k, match k with O => Some "bob" | _ => None end) ] |}.

(** A [SELECT] on the two users that succeeds; [mysql_affected_rows]
    reports [(my_ulonglong)-1] for it. *)
Definition select_run : MySQL.QueryRun :=
  {| MySQL.CheckConnection := true; MySQL.mysql_real_query := 0;
     MySQL.mysql_use_result := Some two_users;
     MySQL.mysql_affected_rows := 2 ^ 64 - 1;
     MySQL.mysql_errno := 0%N; MySQL.mysql_error := "";
     MySQL.unset_currentrow := 0; MySQL.unset_rows := 0 |}.

(** An escape function that puts a backslash before a quote, and the
    [isalnum] of the C locale. *)
Fixpoint escape_quotes (s : string) : string :=
  match s with
  | EmptyString => EmptyString
  | String a s =>
      if decide (a = "'"%char) then String "\" (String a (escape_quotes s))
      else String a (escape_quotes s)
  end.

Definition isalnum_C (a : Ascii.ascii) : bool :=
  let n := Z.of_nat (Ascii.nat_of_ascii a) in
  ((48 <=? n) && (n <=? 57)) || ((65 <=? n) && (n <=? 90))
  || ((97 <=? n) && (n <=? 122)).

Definition no_jobs : MySQL.ModuleSQL :=
  {| MySQL.qq := []; MySQL.rq := []; MySQL.callbacks := [] |}.

End Examples.

(* ====================================================================== *)
(** * Part II: properties                                                  *)
(* ====================================================================== *)

(** Turns the boolean tests of the C conditions into arithmetic facts. *)
Ltac bool_to_Z :=
  repeat match goal with
  | H : (_ || _) = true |- _ => apply orb_true_iff in H as [H|H]
  | H : (_ || _) = false |- _ => apply orb_false_iff in H as [? ?]
  | H : (_ && _) = true |- _ => apply andb_true_iff in H as [? ?]
  | H : (_ && _) = false |- _ => apply andb_false_iff in H as [H|H]
  | H : (_ >? _) = _ |- _ => rewrite Z.gtb_ltb in H
  | H : (_ <? _) = true |- _ => apply Z.ltb_lt in H
  | H : (_ <? _) = false |- _ => apply Z.ltb_ge in H
  | H : (_ <=? _) = true |- _ => apply Z.leb_le in H
  | H : (_ <=? _) = false |- _ => apply Z.leb_gt in H
  | H : (_ =? _) = true |- _ => apply Z.eqb_eq in H
  | H : (_ =? _) = false |- _ => apply Z.eqb_neq in H
  end.

Module KQueueProofs.
Import KQueue Examples.

Section Engine.

Variable MAX_DESCRIPTORS : Z.

Local Abbreviation AddFd := (AddFd MAX_DESCRIPTORS).
Local Abbreviation DelFd := (DelFd MAX_DESCRIPTORS).
Local Abbreviation run_ops := (run_ops MAX_DESCRIPTORS).
Local Abbreviation GetRemainingFds := (GetRemainingFds MAX_DESCRIPTORS).

(** *** Registration *)



Lemma AddFd_occupied eh i e :
  is_Some (ref e !! GetFd eh) → AddFd eh i e = (false, e).
Proof.
  intros [old Hold]. unfold KQueue.AddFd.
  destruct (_ || _); [done|]. destruct (_ <=? 1); [done|].
  by rewrite Hold.
Qed.








End Engine.

(** *** Dispatch *)

(** An event whose slot is empty is not skipped: the pass ends at it. *)
Lemma dispatch_loop_empty_slot MAX HandleEvent i j ke rest e :
  ref e !! ident ke = None →
  ∃ e', dispatch_loop MAX HandleEvent i j (ke :: rest) e = NullHandler j e'
        ∧ ref e' = ref e ∧ delivered e' = delivered e.
Proof.
  intros Hslot. simpl. destruct (tests_as_write ke); simpl; rewrite Hslot; eauto.
Qed.

(** The callback is selected by [flags] alone: [filter], which holds the
    direction, is never read. *)
Lemma tests_as_write_ignores_filter id f f' fl :
  tests_as_write (EV_SET id f fl) = tests_as_write (EV_SET id f' fl).
Proof. reflexivity. Qed.

(** With [EVFILT_WRITE = -2] the test clears bit 0 ([EV_ADD]) of [flags] and
    asks whether anything is left. *)
Lemma tests_as_write_flags ke :
  tests_as_write ke = true ↔ flags ke ≠ 0 ∧ flags ke ≠ EV_ADD.
Proof.
  unfold tests_as_write, EVFILT_WRITE, EV_ADD.
  rewrite negb_true_iff, Z.eqb_neq.
  change (-2) with (Z.lnot (Z.ones 1)).
  rewrite <- Z.ldiff_land, Z.ldiff_ones_r by lia.
  rewrite Z.shiftl_mul_pow2, Z.shiftr_div_pow2 by lia.
  change (2 ^ 1) with 2.
  pose proof (Z.div_mod (flags ke) 2 ltac:(lia)).
  pose proof (Z.mod_pos_bound (flags ke) 2 ltac:(lia)). lia.
Qed.

(** C1: a readiness event whose descriptor has no handle-table entry when
    it is processed should be discarded without any callback. Evaluated on
    the code: descriptors 3 and 4 are registered and both readable in one
    batch; the handler of 3 unregisters 4 in its callback. The pass does not
    discard the event for 4: it ends at index 1 on the empty slot [ref[4]]
    (a call through a NULL pointer), after the single callback for 3. *)
Theorem C1_event_for_unregistered_descriptor :
  ∃ e, DispatchEvents 1024 closes_4
         [EV_SET 3 EVFILT_READ 0; EV_SET 4 EVFILT_READ 0] two_registered
       = NullHandler 1 e
     ∧ ref two_registered !! 4 = Some h4
     ∧ ref e !! 4 = None
     ∧ delivered e = [(h3, EVENT_READ)].
Proof. eexists. repeat split; reflexivity. Qed.

(** C3: the write callback should run exactly for events that report write
    readiness and the read callback exactly for those that report read
    readiness. Evaluated on the code: a read event that carries [EV_EOF]
    (the peer closed) is delivered as [EVENT_WRITE], and a write event with
    no flag set is delivered as [EVENT_READ]. *)
Theorem C3_callback_chosen_from_flags :
  (∃ e, DispatchEvents 1024 quiet [EV_SET 5 EVFILT_READ EV_EOF] one_registered
        = Returned 1 e
      ∧ delivered e = [(h5, EVENT_WRITE)])
  ∧ (∃ e, DispatchEvents 1024 quiet [EV_SET 5 EVFILT_WRITE 0] one_registered
          = Returned 1 e
        ∧ delivered e = [(h5, EVENT_READ)]).
Proof. split; eexists; split; reflexivity. Qed.

(** C4: a registration whose kernel insertion fails should return an error
    and leave the handle table unchanged. Evaluated on the code: on a fresh
    engine, [AddFd] for descriptor 3 with [kevent()] returning -1 returns
    false with the handler left in slot 3 and the count still 0, so that a
    second attempt for descriptor 3 is refused as "slot already occupied". *)
Theorem C4_failed_insertion_leaves_slot_set :
  ∃ e, AddFd 1024 h3 (-1) new_engine = (false, e)
     ∧ ref new_engine !! 3 = None
     ∧ ref e !! 3 = Some h3
     ∧ CurrentSetSize e = 0
     ∧ AddFd 1024 h3 0 e = (false, e).
Proof. eexists. repeat split; reflexivity. Qed.

(** C7: after a write notification has fired once, no further writable
    notification should reach the descriptor's handler without a new
    request. Evaluated on the code: one [WantWrite] for descriptor 5 arms
    [EVFILT_WRITE] with [EV_ADD | EV_ONESHOT]; the one-shot write event
    fires and read interest is re-added; then the peer closes and the read
    event arrives with [EV_EOF]. The handler is called with [EVENT_WRITE]
    twice, although [changes] shows the single write request. *)
Theorem C7_second_write_callback_without_request :
  ∃ e2 e3,
    DispatchEvents 1024 quiet [EV_SET 5 EVFILT_WRITE EV_ONESHOT]
      (WantWrite h5 0 one_registered) = Returned 1 e2
    ∧ DispatchEvents 1024 quiet [EV_SET 5 EVFILT_READ EV_EOF] e2
      = Returned 1 e3
    ∧ changes e3 = [EV_SET 5 EVFILT_READ EV_ADD;
                    EV_SET 5 EVFILT_WRITE (Z.lor EV_ADD EV_ONESHOT);
                    EV_SET 5 EVFILT_READ EV_ADD;
                    EV_SET 5 EVFILT_READ EV_ADD]
    ∧ delivered e3 = [(h5, EVENT_WRITE); (h5, EVENT_WRITE)]
    ∧ count_delivered 5 EVENT_WRITE e3 = 2%nat.
Proof. do 2 eexists. repeat split; reflexivity. Qed.

(** C8: the count [CurrentSetSize] should equal the number of non-empty
    slots. Evaluated on the code: after the single registration of
    descriptor 3 whose kernel insertion fails, no registration has
    succeeded and the count is 0, but one slot is occupied. *)
Theorem C8_count_and_occupied_slots_differ :
  ∃ e, run_ops 1024 [OpAddFd h3 (-1)] new_engine = (0, 0, e)
     ∧ CurrentSetSize e = 0
     ∧ occupied e = 1.
Proof. eexists. repeat split; reflexivity. Qed.




End KQueueProofs.

Module MySQLProofs.
Import MySQL.

(** *** The result queue *)

Lemma foldl_deliver cbs items :
  foldl deliver cbs items = cbs ++ foldl deliver [] items.
Proof.
  revert cbs. induction items as [|i items IH]; intros cbs; simpl.
  { by rewrite app_nil_r. }
  rewrite IH, (IH (deliver [] i)). unfold deliver. by rewrite app_assoc.
Qed.

Lemma foldl_deliver_length items :
  length (foldl deliver [] items) = length items.
Proof.
  induction items as [|i items IH]; [done|]. simpl.
  rewrite foldl_deliver, length_app, IH. done.
Qed.

Lemma foldl_deliver_lookup items k item :
  items !! k = Some item →
  foldl deliver [] items !! k = deliver [] item !! 0%nat.
Proof.
  revert k. induction items as [|i items IH]; intros k Hk; [done|].
  simpl. rewrite foldl_deliver. destruct k as [|k]; simpl in *.
  - by injection Hk as ->.
  - by apply IH.
Qed.

(** C6: [OnNotify] hands every queued result to the query it belongs to, in
    the order of the result queue: the k-th callback it makes is for the
    k-th queued item, [OnError] with the result's error when the result
    carries one and [OnResult] with the result otherwise; it makes no other
    callback and leaves the result queue empty (and the job queue as it
    was). *)
Theorem C6_drain_delivers_in_queue_order m :
  ∃ made,
    callbacks (OnNotify m) = callbacks m ++ made
    ∧ length made = length (rq m)
    ∧ (∀ k item, rq m !! k = Some item →
         made !! k = Some (OnError (rq_q item) (err (r item)))
           ∧ id (err (r item)) ≠ SQL_NO_ERROR
         ∨ made !! k = Some (OnResult (rq_q item) (r item))
           ∧ id (err (r item)) = SQL_NO_ERROR)
    ∧ rq (OnNotify m) = []
    ∧ qq (OnNotify m) = qq m.
Proof.
  exists (foldl deliver [] (rq m)). simpl.
  split; [apply foldl_deliver|]. split; [apply foldl_deliver_length|].
  split; [|done]. intros k item Hk.
  rewrite (foldl_deliver_lookup _ _ _ Hk). unfold deliver. simpl.
  destruct (decide (id (err (r item)) = SQL_NO_ERROR)); [right|left]; done.
Qed.

(** *** The worker's turn *)

(** The job that was taken is still at the front: it leaves the job queue
    and its result is appended to the result queue, once. *)
Lemma Run_finish_posts i rest res m :
  qq m = i :: rest →
  Run_finish i res m
  = Posted {| qq := rest; rq := rq m ++ [{| rq_q := q i; r := res |}];
              callbacks := callbacks m |}.
Proof. intros Hqq. unfold Run_finish. rewrite Hqq. by rewrite decide_True. Qed.

(** Another job is at the front: the result is dropped and nothing moves. *)
Lemma Run_finish_drops i front rest res m :
  qq m = front :: rest → addr (q front) ≠ addr (q i) →
  Run_finish i res m = Dropped m.
Proof. intros Hqq Hne. unfold Run_finish. rewrite Hqq. by rewrite decide_False. Qed.

(** C5: a job that teardown removes while it is in flight should have its
    result discarded. Evaluated on the code: one job is submitted and taken
    by the worker; [OnUnloadModule] for the job's module fails it and
    empties the queue; when the query is done, [Run] reads
    [qq.front()] of the empty queue (undefined) instead of discarding the
    result. *)
Theorem C5_in_flight_job_removed_from_singleton_queue :
  let q1 := {| addr := 1; creator := 9 |} in
  let m1 := submit q1 "SELECT 1" 7 {| qq := []; rq := []; callbacks := [] |} in
  ∃ i m2,
    Run_take m1 = Some i
    ∧ q i = q1
    ∧ OnUnloadModule 9 m1 = Some m2
    ∧ qq m2 = []
    ∧ callbacks m2 = [OnError q1 {| id := SQL_BAD_DBID; str := "" |}]
    ∧ ∀ res, Run_finish i res m2 = FrontOfEmptyQueue.
Proof. do 2 eexists. repeat split; reflexivity. Qed.

(** *** Withdrawal of a connection *)

Lemma to_uint_small z : 0 <= z < 2 ^ 32 → to_uint z = z.
Proof. intros Hz. unfold to_uint. by apply Z.mod_small. Qed.

Lemma at_index_nat {A} (v : list A) (n : nat) : at_index v (Z.of_nat n) = v !! n.
Proof.
  unfold at_index. destruct (_ || _) eqn:Hout; bool_to_Z; try lia.
  - symmetry. apply lookup_ge_None_2. lia.
  - by rewrite Nat2Z.id.
Qed.

(** The scan of the last [length pre] indices of [pre ++ suf] fails the
    jobs of [pre] that target [conn], last one first, and keeps the rest. *)
Lemma scan_passes_prefix conn pre : ∀ suf results cbs,
  Z.of_nat (length pre) < 2 ^ 32 →
  scan_passes (length pre) conn
    {| j := to_uint (Z.of_nat (length pre) - 1);
       module := {| qq := pre ++ suf; rq := results; callbacks := cbs |} |}
  = Next
      {| j := to_uint (-1);
         module :=
           {| qq := filter (λ i, c i ≠ conn) pre ++ suf; rq := results;
              callbacks := cbs ++
                ((λ i, OnError (q i) {| id := SQL_BAD_DBID; str := "" |})
                   <$> reverse (filter (λ i, c i = conn) pre)) |} |}.
Proof.
  induction pre as [|x pre IH] using rev_ind; intros suf results cbs Hlen.
  { simpl. by rewrite app_nil_r. }
  rewrite length_app in Hlen |- *. simpl in Hlen |- *.
  rewrite Nat.add_1_r. simpl.
  replace (Z.of_nat (S (length pre)) - 1) with (Z.of_nat (length pre)) by lia.
  rewrite to_uint_small by lia.
  unfold scan_pass. simpl. rewrite at_index_nat, Nat2Z.id.
  rewrite <- app_assoc. simpl. rewrite list_lookup_middle by done. simpl.
  rewrite !filter_app.
  destruct (decide (c x = conn)) as [Hx|Hx].
  - rewrite (filter_cons_False (λ i, c i ≠ conn)) by naive_solver.
    rewrite (filter_cons_True (λ i, c i = conn)) by done.
    rewrite !filter_nil, app_nil_r, reverse_snoc.
    unfold fail_and_erase. simpl. rewrite delete_middle.
    rewrite IH by lia. by rewrite <- app_assoc.
  - rewrite (filter_cons_True (λ i, c i ≠ conn)) by done.
    rewrite (filter_cons_False (λ i, c i = conn)) by done.
    rewrite !filter_nil, app_nil_r, <- app_assoc. simpl. by rewrite IH by lia.
Qed.

(** After the scan has reached index 0 the loop does not end: [j] wraps to
    [UINT_MAX] and the next pass indexes the queue there. *)
Lemma scan_pass_after_index_0 conn m :
  Z.of_nat (length (qq m)) < 2 ^ 32 →
  scan_pass conn {| j := to_uint (-1); module := m |}
  = OutOfRange {| j := to_uint (-1); module := m |}.
Proof.
  intros Hlen. unfold scan_pass, at_index. cbn [j module].
  assert (to_uint (-1) = 2 ^ 32 - 1) as -> by reflexivity.
  destruct (_ || _) eqn:Hout; [done|]. bool_to_Z. lia.
Qed.

(** C2, as the code has it: when a connection is withdrawn while N jobs that
    target it are queued, the scan of the job queue, from its last index
    down to index 0, fails exactly those N jobs with [SQL_BAD_DBID]
    (ResourceWithdrawn), each by a direct [OnError] call made during the
    scan, in reverse queue order (the job submitted last is failed first),
    and removes them from the queue; the jobs that target other connections
    stay queued, in their order, and the result queue is not touched. *)
Theorem C2_withdrawal_fails_queued_jobs_last_first conn m :
  Z.of_nat (length (qq m)) < 2 ^ 32 →
  ∃ s,
    scan_passes (length (qq m)) conn (scan_start m) = Next s
    ∧ callbacks (module s)
      = callbacks m ++
          ((λ i, OnError (q i) {| id := SQL_BAD_DBID; str := "" |})
             <$> reverse (filter (λ i, c i = conn) (qq m)))
    ∧ qq (module s) = filter (λ i, c i ≠ conn) (qq m)
    ∧ rq (module s) = rq m.
Proof.
  intros Hlen. destruct m as [jobs results cbs]. unfold scan_start. simpl in *.
  pose proof (scan_passes_prefix conn jobs [] results cbs Hlen) as Hscan.
  rewrite !app_nil_r in Hscan. rewrite Hscan. eexists. by repeat split.
Qed.

(** Three queued jobs, the first and the last for connection 7: job 3 is
    failed, then job 1, and job 2 stays. *)
Lemma C2_withdrawal_witness :
  ∃ s,
    scan_passes 3 7 (scan_start Examples.scan_demo) = Next s
    ∧ callbacks (module s)
      = [OnError {| addr := 3; creator := 9 |}
           {| id := SQL_BAD_DBID; str := "" |};
         OnError {| addr := 1; creator := 9 |}
           {| id := SQL_BAD_DBID; str := "" |}]
    ∧ qq (module s)
      = [{| q := {| addr := 2; creator := 9 |}; query := "b"; c := 8 |}]
    ∧ rq (module s) = [].
Proof.
  apply (C2_withdrawal_fails_queued_jobs_last_first 7%nat Examples.scan_demo).
  vm_compute. reflexivity.
Defined.

(** C2, as stated, asks for the failures in queue (submission) order. With
    jobs 1 and 3 queued for the withdrawn connection 7, the scan is at no
    point in a state where it has failed job 1 and then job 3. *)
Lemma C2_not_in_submission_order :
  ¬ ∃ k s,
      scan_passes k 7 (scan_start Examples.scan_demo) = Next s
      ∧ callbacks (module s)
        = [OnError {| addr := 1; creator := 9 |}
             {| id := SQL_BAD_DBID; str := "" |};
           OnError {| addr := 3; creator := 9 |}
             {| id := SQL_BAD_DBID; str := "" |}].
Proof.
  intros (k & s & Hscan & Hcbs).
  destruct k as [|[|[|[|k]]]]; vm_compute in Hscan; try discriminate;
    injection Hscan as <-; discriminate.
Qed.

(** *** Result sets *)

Lemma filling_materialized numf n r :
  Z.of_nat numf < 2 ^ 31 → filling numf n r → materialized r.
Proof.
  intros Hnumf [Hcur Hn Hrows Hwidth _]. split; [done|lia|].
  intros k cells Hk. specialize (Hwidth _ _ Hk). lia.
Qed.

Lemma push_fields_spec fields row n cols : ∀ r cells,
  fieldlists r !! n = Some cells →
  ∃ names added,
    push_fields fields row n cols r
    = Some {| err := err r; currentrow := currentrow r; rows := rows r;
              colnames := colnames r ++ names;
              fieldlists := <[n := cells ++ added]> (fieldlists r) |}
    ∧ length added = length cols.
Proof.
  induction cols as [|k cols IH]; intros r cells Hn.
  { exists [], []. simpl. rewrite !app_nil_r, list_insert_id by done.
    by destruct r. }
  simpl. unfold push_back_at. rewrite Hn. simpl.
  edestruct (IH {| err := err r; currentrow := currentrow r; rows := rows r;
                   colnames := colnames r ++ [default "" (fields k)];
                   fieldlists := <[n := cells ++
                     [match row k with
                      | Some s => SQLEntry_of s | None => SQLEntry_null
                      end]]> (fieldlists r) |})
    as (names & added & -> & Hlen).
  { simpl. apply list_lookup_insert_eq. by eapply lookup_lt_Some. }
  simpl. eexists (_ :: names), (_ :: added).
  rewrite list_insert_insert_eq, <- !app_assoc. simpl. split; [done|].
  by rewrite Hlen.
Qed.

Lemma fetch_rows_filling res fetched : ∀ n r,
  0 <= mysql_num_fields res →
  filling (Z.to_nat (mysql_num_fields res)) n r →
  rows r + Z.of_nat (length fetched) < 2 ^ 31 →
  ∃ n' r', fetch_rows res fetched n r = Some r'
           ∧ filling (Z.to_nat (mysql_num_fields res)) n' r'.
Proof.
  induction fetched as [|row fetched IH]; intros n r Hnumf Hfill Hfit.
  { simpl. eauto. }
  destruct Hfill as [Hcur Hn Hrows Hwidth Hempty].
  simpl in Hfit |- *.
  rewrite (to_uint_small (rows r)), (to_uint_small (rows r + 1)) by lia.
  set (fl := if _ <? _ then _ else _).
  assert (rows r + 1 <= Z.of_nat (length fl)) as Hfl.
  { subst fl. destruct (_ <? _) eqn:Hlt; bool_to_Z; [|lia].
    rewrite length_app. simpl. lia. }
  assert (∀ k cells, fl !! k = Some cells →
            fieldlists r !! k = Some cells ∨ cells = []) as Hfl_lookup.
  { subst fl. destruct (_ <? _); [|by left]. intros k cells Hk.
    apply lookup_app_Some in Hk as [Hk|[_ Hk]]; [by left|right].
    apply list_lookup_singleton_Some in Hk as [_ <-]. done. }
  assert (∀ k cells, fl !! k = Some cells →
            (length cells ≤ Z.to_nat (mysql_num_fields res))%nat) as Hfl_width.
  { intros k cells [Hk| ->]%Hfl_lookup; [by eapply Hwidth|simpl; lia]. }
  assert (∀ k cells, (n ≤ k)%nat → fl !! k = Some cells → cells = [])
    as Hfl_empty.
  { intros k cells Hnk [Hk| ->]%Hfl_lookup; [by eapply Hempty|done]. }
  clearbody fl.
  destruct (mysql_num_fields res =? 0) eqn:Hzero.
  { exists n. eexists. split; [done|]. split; simpl; try done; lia. }
  destruct (mysql_fetch_fields res) as [fields|].
  - destruct (lookup_lt_is_Some_2 fl n ltac:(lia)) as [cells Hcells].
    pose proof (Hfl_empty _ _ (Nat.le_refl n) Hcells) as ->.
    edestruct (push_fields_spec fields row n
                 (seq 0 (Z.to_nat (mysql_num_fields res)))
                 {| err := err r; currentrow := currentrow r; rows := rows r;
                    colnames := []; fieldlists := fl |} [])
      as (names & added & -> & Hadded); [done|].
    simpl. rewrite length_seq in Hadded. apply IH; [done| |simpl; lia].
    split; simpl; [done|lia|rewrite length_insert; lia| |].
    + intros k cells Hk. destruct (decide (k = n)) as [->|Hne].
      * rewrite list_lookup_insert_eq in Hk by by eapply lookup_lt_Some.
        injection Hk as <-. lia.
      * rewrite list_lookup_insert_ne in Hk by done. by eapply Hfl_width.
    + intros k cells Hnk Hk.
      rewrite list_lookup_insert_ne in Hk by lia.
      eapply Hfl_empty; [|done]. lia.
  - apply IH; [done| |simpl; lia]. split; simpl; try done; lia.
Qed.

Lemma MySQLresult_new_materialized res affected_rows :
  fits_int res affected_rows →
  ∃ r, MySQLresult_new res affected_rows = Some r ∧ materialized r.
Proof.
  intros Hfit. unfold MySQLresult_new.
  set (r0 := if 1 <=? affected_rows then _ else _).
  assert (rows r0 = Z.max affected_rows 0
          ∧ ∀ numf, filling numf 0 r0) as [Hrows0 Hfill0].
  { subst r0. destruct (1 <=? affected_rows) eqn:Hge; bool_to_Z; simpl.
    - split; [lia|]. intros numf.
      split; simpl; [done|lia|rewrite length_replicate; lia| |].
      + intros k cells [-> _]%lookup_replicate_1. simpl. lia.
      + by intros k cells _ [-> _]%lookup_replicate_1.
    - split; [lia|]. intros numf. split; simpl; try done; lia. }
  clearbody r0. destruct res as [res|]; simpl in Hfit.
  - destruct Hfit as [Hnumf Hrows].
    destruct (fetch_rows_filling res (mysql_fetch_row res) 0 r0)
      as (n' & r' & -> & Hfill); [lia|done|lia|].
    exists r'. split; [done|].
    eapply filling_materialized; [|done]. lia.
  - exists r0. split; [done|].
    destruct (Hfill0 0%nat) as [Hcur Hn Hrows Hwidth _].
    split; [done|lia|]. intros k cells Hk.
    specialize (Hwidth _ _ Hk). lia.
Qed.

Lemma to_int_small z : - 2 ^ 31 <= z < 2 ^ 31 → to_int z = z.
Proof. intros Hz. unfold to_int. rewrite Z.mod_small; lia. Qed.

Lemma at_index_in_range {A} (v : list A) i :
  0 <= i < Z.of_nat (length v) →
  ∃ x, at_index v i = Some x ∧ v !! Z.to_nat i = Some x.
Proof.
  intros Hi. destruct (lookup_lt_is_Some_2 v (Z.to_nat i) ltac:(lia)) as [x Hx].
  exists x. split; [|done]. rewrite <- (Z2Nat.id i) by lia.
  by rewrite at_index_nat.
Qed.

Lemma at_index_outside {A} (v : list A) i :
  ¬ (0 <= i < Z.of_nat (length v)) → at_index v i = None.
Proof.
  intros Hi. unfold at_index.
  destruct (_ || _) eqn:Hout; [done|]. bool_to_Z. lia.
Qed.

(** [GetValue] inside the stored data. *)
Lemma GetValue_stored r row column :
  materialized r →
  0 <= row < Rows r → 0 <= column < width r row →
  ∃ cell, stored r row column = Some cell ∧ GetValue r row column = Some cell.
Proof.
  intros [_ Hrows Hwidth] Hrow Hcol. unfold Rows in Hrow.
  unfold width, stored, GetValue in *.
  destruct (at_index_in_range (fieldlists r) row ltac:(lia))
    as (cells & Hcells & Hlookup).
  rewrite Hcells in Hcol |- *. simpl in Hcol |- *.
  specialize (Hwidth _ _ Hlookup).
  destruct (at_index_in_range cells column ltac:(lia)) as (cell & Hcell & _).
  exists cell. split; [done|].
  destruct (_ && _) eqn:Hguard; [|bool_to_Z; lia].
  rewrite to_int_small by lia.
  destruct (column <? _) eqn:Hlt; [done|bool_to_Z; lia].
Qed.

(** [GetValue] everywhere else. *)
Lemma GetValue_outside r row column :
  materialized r →
  ¬ (0 <= row < Rows r ∧ 0 <= column < width r row) →
  GetValue r row column = Some SQLEntry_null.
Proof.
  intros [_ Hrows Hwidth] Hout. unfold Rows, width, GetValue in *.
  destruct (_ && _) eqn:Hguard; [|done].
  apply andb_true_iff in Hguard as [Hguard ?].
  apply andb_true_iff in Hguard as [? ?]. bool_to_Z.
  destruct (at_index_in_range (fieldlists r) row ltac:(lia))
    as (cells & Hcells & Hlookup).
  rewrite Hcells in Hout |- *. simpl in Hout |- *.
  specialize (Hwidth _ _ Hlookup). rewrite to_int_small by lia.
  destruct (column <? _) eqn:Hlt; [bool_to_Z; lia|done].
Qed.

(** [GetRow], called [k] times from row [currentrow]. *)
Lemma GetRow_times_from k : ∀ r,
  0 <= currentrow r →
  0 <= rows r <= Z.of_nat (length (fieldlists r)) →
  GetRow_times k r
  = Some (((λ cells, (true, cells)) <$>
             take k (drop (Z.to_nat (currentrow r))
                       (take (Z.to_nat (rows r)) (fieldlists r))))
          ++ replicate (k - (Z.to_nat (rows r) - Z.to_nat (currentrow r)))
               (false, [])).
Proof.
  induction k as [|k IH]; intros r Hcur Hrows; [done|].
  simpl GetRow_times. unfold GetRow.
  destruct (currentrow r <? rows r) eqn:Hlt; bool_to_Z.
  - destruct (at_index_in_range (fieldlists r) (currentrow r) ltac:(lia))
      as (cells & -> & Hlookup).
    simpl. rewrite IH by (simpl; lia). simpl.
    rewrite (drop_S _ cells (Z.to_nat (currentrow r)))
      by (rewrite lookup_take_lt by lia; done).
    simpl.
    replace (Z.to_nat (currentrow r + 1)) with (S (Z.to_nat (currentrow r)))
      by lia.
    replace (S k - (Z.to_nat (rows r) - Z.to_nat (currentrow r)))%nat
      with (k - (Z.to_nat (rows r) - S (Z.to_nat (currentrow r))))%nat by lia.
    done.
  - simpl. rewrite IH by done. simpl.
    rewrite drop_ge by (rewrite length_take; lia).
    rewrite take_nil.
    replace (Z.to_nat (rows r) - Z.to_nat (currentrow r))%nat with 0%nat by lia.
    rewrite !Nat.sub_0_r. done.
Qed.

(** C10: for every result set the constructor builds, [GetValue] returns
    the stored cell when 0 <= row < Rows() and 0 <= column < the width of
    that row, and the empty entry for all other indices; [k] successive
    [GetRow] calls return true with the stored rows 0, 1, ... in order, once
    each, and from call Rows() + 1 on return false with the output empty.
    Neither accessor indexes outside the stored vectors (no call yields
    [None]). *)
Theorem C10_accessors_stay_inside_stored_rows res affected_rows :
  fits_int res affected_rows →
  ∃ r,
    MySQLresult_new res affected_rows = Some r
    ∧ (Z.to_nat (Rows r) ≤ length (fieldlists r))%nat
    ∧ (∀ row column,
         0 <= row < Rows r → 0 <= column < width r row →
         ∃ cell, stored r row column = Some cell
                 ∧ GetValue r row column = Some cell)
    ∧ (∀ row column,
         ¬ (0 <= row < Rows r ∧ 0 <= column < width r row) →
         GetValue r row column = Some SQLEntry_null)
    ∧ (∀ k,
         GetRow_times k r
         = Some (((λ cells, (true, cells)) <$>
                    take k (take (Z.to_nat (Rows r)) (fieldlists r)))
                 ++ replicate (k - Z.to_nat (Rows r)) (false, []))).
Proof.
  intros Hfit.
  destruct (MySQLresult_new_materialized res affected_rows Hfit)
    as (r & Hnew & Hmat).
  exists r. split; [done|]. pose proof Hmat as [Hcur Hrows _].
  split; [unfold Rows; lia|].
  split; [intros; by apply GetValue_stored|].
  split; [intros; by apply GetValue_outside|].
  intros k. rewrite GetRow_times_from by lia.
  rewrite Hcur. simpl. by rewrite Nat.sub_0_r.
Qed.

(** The two-user result: two rows of two cells each. *)
Lemma C10_accessors_witness :
  ∃ r,
    MySQLresult_new (Some Examples.two_users) (-1) = Some r
    ∧ (Z.to_nat (Rows r) ≤ length (fieldlists r))%nat
    ∧ (∀ row column,
         0 <= row < Rows r → 0 <= column < width r row →
         ∃ cell, stored r row column = Some cell
                 ∧ GetValue r row column = Some cell)
    ∧ (∀ row column,
         ¬ (0 <= row < Rows r ∧ 0 <= column < width r row) →
         GetValue r row column = Some SQLEntry_null)
    ∧ (∀ k,
         GetRow_times k r
         = Some (((λ cells, (true, cells)) <$>
                    take k (take (Z.to_nat (Rows r)) (fieldlists r)))
                 ++ replicate (k - Z.to_nat (Rows r)) (false, []))).
Proof.
  apply (C10_accessors_stay_inside_stored_rows (Some Examples.two_users) (-1)).
  simpl. lia.
Defined.

(** The same result, read: the cells of the second row and beyond. *)
Example two_users_read :
  ∃ r,
    MySQLresult_new (Some Examples.two_users) (-1) = Some r
    ∧ Rows r = 2
    ∧ GetValue r 1 0 = Some (SQLEntry_of "bob")
    ∧ GetValue r 1 1 = Some SQLEntry_null
    ∧ GetValue r 1 2 = Some SQLEntry_null
    ∧ GetValue r 2 0 = Some SQLEntry_null
    ∧ GetValue r (-1) 0 = Some SQLEntry_null
    ∧ GetRow_times 3 r
      = Some [(true, [SQLEntry_of "alice"; SQLEntry_of "example.org"]);
              (true, [SQLEntry_of "bob"; SQLEntry_null]);
              (false, [])].
Proof.
  eexists. split; [vm_compute; reflexivity|].
  repeat split; vm_compute; reflexivity.
Qed.

End MySQLProofs.

(* ---------------------------------------------------------------------- *)
(** ** Further properties of the socket engine                             *)
(* ---------------------------------------------------------------------- *)

Module KQueueMore.
Import KQueue.

Section Engine.

Variable MAX_DESCRIPTORS : Z.
Variable HandleEvent : EventHandler → EventType → list EngineCall.

Local Abbreviation AddFd := (AddFd MAX_DESCRIPTORS).
Local Abbreviation DelFd := (DelFd MAX_DESCRIPTORS).
Local Abbreviation run_op := (run_op MAX_DESCRIPTORS).
Local Abbreviation run_ops := (run_ops MAX_DESCRIPTORS).
Local Abbreviation run_call := (run_call MAX_DESCRIPTORS).
Local Abbreviation invoke := (invoke MAX_DESCRIPTORS HandleEvent).
Local Abbreviation dispatch_loop := (dispatch_loop MAX_DESCRIPTORS HandleEvent).
Local Abbreviation DispatchEvents :=
  (DispatchEvents MAX_DESCRIPTORS HandleEvent).
Local Abbreviation reachable := (reachable MAX_DESCRIPTORS HandleEvent).
Local Abbreviation DispatchEvents_wait :=
  (DispatchEvents_wait MAX_DESCRIPTORS HandleEvent).

(** The four ways [AddFd] can end. *)
Lemma AddFd_cases eh i e :
  AddFd eh i e = (false, e)
  ∨ (0 <= GetFd eh <= MAX_DESCRIPTORS ∧ ref e !! GetFd eh = None
     ∧ 1 < MAX_DESCRIPTORS - CurrentSetSize e
     ∧ ∃ e', AddFd eh i e = (negb (i =? -1), e')
             ∧ ref e' = <[GetFd eh := eh]> (ref e)
             ∧ CurrentSetSize e'
               = CurrentSetSize e + (if i =? -1 then 0 else 1)
             ∧ changes e'
               = changes e ++
                   [EV_SET (GetFd eh)
                      (if Readable eh then EVFILT_READ else EVFILT_WRITE)
                      EV_ADD]
             ∧ delivered e' = delivered e).
Proof.
  unfold KQueue.AddFd, GetRemainingFds.
  destruct (_ || _) eqn:Hrange; [by left|].
  destruct (_ <=? 1) eqn:Hroom; [by left|].
  destruct (ref e !! GetFd eh) eqn:Hslot; [by left|]. right.
  bool_to_Z. repeat (split; [done||lia|]).
  destruct (i =? -1); eexists; (split; [done|]); simpl;
    repeat split; try done; lia.
Qed.

(** The two ways [DelFd] can end. *)
Lemma DelFd_cases eh i e :
  (DelFd eh i e).1 = false
  ∧ ref (DelFd eh i e).2 = ref e
  ∧ CurrentSetSize (DelFd eh i e).2 = CurrentSetSize e
  ∨ (DelFd eh i e).1 = true
    ∧ 0 <= GetFd eh <= MAX_DESCRIPTORS ∧ i ≠ -1
    ∧ ref (DelFd eh i e).2 = delete (GetFd eh) (ref e)
    ∧ CurrentSetSize (DelFd eh i e).2 = CurrentSetSize e - 1.
Proof.
  unfold KQueue.DelFd. destruct (_ || _) eqn:Hrange; [by left|].
  destruct (i =? -1) eqn:Hi; [by left|]. right. bool_to_Z.
  simpl. repeat split; try done; lia.
Qed.

Lemma DelFd_delivered eh i e : delivered (DelFd eh i e).2 = delivered e.
Proof.
  unfold KQueue.DelFd. destruct (_ || _); [done|]. by destruct (i =? -1).
Qed.

(** *** The slots and the descriptors of their handlers *)

Lemma AddFd_slots_match eh i e :
  slots_match e → slots_match (AddFd eh i e).2.
Proof.
  intros Hm. destruct (AddFd_cases eh i e) as [->|(_ & _ & _ & e' & -> & Href & _)];
    [done|].
  intros fd eh'. simpl. rewrite Href.
  intros [[<- <-]|[_ ?]]%lookup_insert_Some; [done|by apply Hm].
Qed.

Lemma DelFd_slots_match eh i e :
  slots_match e → slots_match (DelFd eh i e).2.
Proof.
  intros Hm fd eh'.
  destruct (DelFd_cases eh i e) as [(_ & -> & _)|(_ & _ & _ & -> & _)];
    [by apply Hm|].
  intros [_ ?]%lookup_delete_Some. by apply Hm.
Qed.

Lemma run_call_slots_match e c : slots_match e → slots_match (run_call e c).
Proof.
  destruct c; simpl; [apply AddFd_slots_match|apply DelFd_slots_match|done].
Qed.

Lemma invoke_slots_match eh t e : slots_match e → slots_match (invoke eh t e).
Proof.
  intros Hm. unfold KQueue.invoke.
  assert (slots_match (log_call eh t e)) as Hlog by done. revert Hlog.
  generalize (log_call eh t e). induction (HandleEvent eh t) as [|c cs IH];
    intros e1 He1; simpl; [done|].
  by apply IH, run_call_slots_match.
Qed.

Lemma dispatch_loop_slots_match n j ke_list : ∀ e m e',
  slots_match e → dispatch_loop n j ke_list e = Returned m e' →
  slots_match e'.
Proof.
  revert j. induction ke_list as [|ke rest IH]; intros j e m e' Hm; simpl.
  { by intros [= _ <-]. }
  destruct (tests_as_write ke); simpl;
    (destruct (ref e !! ident ke) as [eh|]; [|done]);
    apply IH, invoke_slots_match; done.
Qed.

(** X1: in every state of a running engine, an occupied slot of the handle
    table holds a handler whose descriptor is the index of the slot. *)
Theorem reachable_slots_match e : reachable e → slots_match e.
Proof.
  induction 1 as [|eh i e _ IH|eh i e _ IH|eh i e _ IH|ke_list e n e' _ IH Hd].
  - intros fd eh Hslot. simpl in Hslot. by rewrite lookup_empty in Hslot.
  - by apply AddFd_slots_match.
  - by apply DelFd_slots_match.
  - done.
  - by eapply dispatch_loop_slots_match.
Qed.

(** *** The count and the occupied slots *)



(** X3: when the kernel accepts every insertion and no removal succeeds
    for an empty slot, the count and the number of occupied slots stay
    equal. *)
Theorem tame_count_eq_occupied ops : ∀ e adds dels e',
  CurrentSetSize e = occupied e →
  tame MAX_DESCRIPTORS ops e →
  run_ops ops e = (adds, dels, e') →
  CurrentSetSize e' = occupied e'.
Proof.
  induction ops as [|op ops IH]; intros e adds dels e' He Htame.
  { by intros [= _ _ <-]. }
  destruct Htame as [Hop Htame]. simpl.
  destruct (run_op op e) as [ok e1] eqn:Hrun.
  destruct (KQueue.run_ops _ ops e1) as [[adds1 dels1] e2] eqn:Hrest.
  simpl in Htame.
  assert (CurrentSetSize e1 = occupied e1) as He1.
  { unfold occupied in *. destruct op as [eh i|eh i]; simpl in Hrun.
    - destruct (AddFd_cases eh i e)
        as [Hsame|(_ & Hfree & _ & e'' & Hadd & Href & Hcount & _)].
      + rewrite Hsame in Hrun. by injection Hrun as _ <-.
      + rewrite Hadd in Hrun. injection Hrun as _ <-.
        rewrite Hcount, Href, map_size_insert_None by done.
        destruct (i =? -1) eqn:Hi; bool_to_Z; [done|lia].
    - pose proof (DelFd_cases eh i e) as Hcases. rewrite Hrun in Hcases, Hop.
      simpl in Hcases, Hop.
      destruct Hcases as [(_ & -> & ->)|(-> & _ & _ & -> & ->)]; [done|].
      rewrite map_size_delete_Some by auto.
      destruct (Hop eq_refl) as [eh' Hslot].
      pose proof (map_size_ne_0_lookup_2 (ref e) (GetFd eh) (mk_is_Some _ _ Hslot)).
      lia. }
  specialize (IH _ _ _ _ He1 Htame Hrest).
  by destruct op; intros [= _ _ <-].
Qed.

(** *** How registration and removal compose *)

(** X4: a successful [AddFd] followed by a successful [DelFd] of the same
    handler gives back the table and the count; the kernel was asked to add
    and then to delete the same filter of the same descriptor. *)
Theorem AddFd_DelFd_round_trip eh i i' e :
  (AddFd eh i e).1 = true → i' ≠ -1 →
  let e1 := (AddFd eh i e).2 in
  let e2 := (DelFd eh i' e1).2 in
  (DelFd eh i' e1).1 = true
  ∧ ref e2 = ref e
  ∧ CurrentSetSize e2 = CurrentSetSize e
  ∧ ∃ f, changes e2
         = changes e ++ [EV_SET (GetFd eh) f EV_ADD;
                         EV_SET (GetFd eh) f EV_DELETE].
Proof.
  intros Hadd Hi'. simpl.
  destruct (AddFd_cases eh i e)
    as [Hsame|(Hfd & Hfree & _ & e1 & Heq & Href & Hcount & Hchanges & _)].
  { by rewrite Hsame in Hadd. }
  rewrite Heq in Hadd |- *. simpl in Hadd |- *.
  destruct (i =? -1); [done|].
  unfold KQueue.DelFd. destruct (_ || _) eqn:Hrange; [bool_to_Z; lia|].
  destruct (i' =? -1) eqn:Hi; [bool_to_Z; lia|]. simpl.
  rewrite Href, Hcount, Hchanges, delete_insert_id by done.
  repeat split; [lia|]. eexists. by rewrite <- app_assoc.
Qed.

(** X5: once a descriptor is registered, every further [AddFd] for that
    descriptor, by whatever handler object and whatever the kernel would
    answer, is refused and changes nothing: the registered handler is never
    overwritten and no change is submitted to the kernel. *)
Theorem AddFd_twice_refused eh i e eh' i' :
  (AddFd eh i e).1 = true → GetFd eh' = GetFd eh →
  let e1 := (AddFd eh i e).2 in
  ref e1 !! GetFd eh = Some eh ∧ AddFd eh' i' e1 = (false, e1).
Proof.
  intros Hadd Hfd. simpl.
  destruct (AddFd_cases eh i e)
    as [Hsame|(_ & _ & _ & e1 & Heq & Href & _)].
  { by rewrite Hsame in Hadd. }
  rewrite Heq. simpl.
  assert (ref e1 !! GetFd eh = Some eh) as Hslot.
  { rewrite Href. apply lookup_insert_eq. }
  split; [done|].
  destruct (AddFd_cases eh' i' e1) as [Hsame|(_ & Hfree & _)]; [done|].
  congruence.
Qed.


(** *** A dispatch pass over registered descriptors *)

Lemma AddFd_ref_grows eh i e : ref e ⊆ ref (AddFd eh i e).2.
Proof.
  destruct (AddFd_cases eh i e) as [->|(_ & Hfree & _ & e' & -> & Href & _)];
    [done|].
  simpl. rewrite Href. by apply insert_subseteq.
Qed.

Lemma AddFd_delivered eh i e : delivered (AddFd eh i e).2 = delivered e.
Proof.
  by destruct (AddFd_cases eh i e) as [->|(_ & _ & _ & e' & -> & _ & _ & _ & ?)].
Qed.

(** A callback that does not unregister keeps every registered handler in
    its slot. *)
Lemma invoke_ref_grows eh t e :
  (∀ eh' i, CallDelFd eh' i ∉ HandleEvent eh t) →
  ref e ⊆ ref (invoke eh t e)
  ∧ delivered (invoke eh t e) = delivered e ++ [(eh, t)].
Proof.
  intros Hno. unfold KQueue.invoke.
  assert (ref e ⊆ ref (log_call eh t e)
          ∧ delivered (log_call eh t e) = delivered e ++ [(eh, t)])
    as Hlog by done.
  revert Hlog. generalize (log_call eh t e).
  induction (HandleEvent eh t) as [|c cs IH]; intros e1 [Hsub Hdel]; simpl;
    [done|].
  apply IH.
  { intros eh' i Hin. apply (Hno eh' i). by right. }
  destruct c as [eh' i|eh' i|eh' i]; simpl.
  - split; [by etrans; [|apply AddFd_ref_grows]|by rewrite AddFd_delivered].
  - destruct (Hno eh' i). by left.
  - done.
Qed.

Lemma dispatch_loop_registered n j ke_list : ∀ e0 e,
  (∀ eh t eh' i, CallDelFd eh' i ∉ HandleEvent eh t) →
  ref e0 ⊆ ref e →
  Forall (λ ke, is_Some (ref e0 !! ident ke)) ke_list →
  ∃ e' made,
    dispatch_loop n j ke_list e = Returned n e'
    ∧ ref e0 ⊆ ref e'
    ∧ delivered e' = delivered e ++ made
    ∧ Forall2 (λ ke call, ref e0 !! ident ke = Some call.1
                          ∧ call.2 = selected ke) ke_list made.
Proof.
  revert j. induction ke_list as [|ke rest IH]; intros j e0 e Hno Hsub Hreg.
  { exists e, []. simpl. by rewrite app_nil_r. }
  apply Forall_cons in Hreg as [[eh Heh] Hreg].
  pose proof (lookup_weaken _ _ _ _ Heh Hsub) as Hslot.
  simpl. destruct (tests_as_write ke) eqn:Hsel; simpl; rewrite Hslot.
  - destruct (invoke_ref_grows eh EVENT_WRITE
                (submit_change (EV_SET (ident ke) EVFILT_READ EV_ADD) e))
      as [Hgrow Hdel]; [done|].
    destruct (IH (S j) e0 _ Hno (transitivity Hsub Hgrow) Hreg)
      as (e' & made & -> & Hsub' & Hdel' & Hmade).
    exists e', ((eh, EVENT_WRITE) :: made).
    rewrite Hdel', Hdel. simpl. rewrite <- app_assoc.
    repeat split; try done. constructor; [|done].
    unfold selected. by rewrite Hsel.
  - destruct (invoke_ref_grows eh EVENT_READ e) as [Hgrow Hdel]; [done|].
    destruct (IH (S j) e0 _ Hno (transitivity Hsub Hgrow) Hreg)
      as (e' & made & -> & Hsub' & Hdel' & Hmade).
    exists e', ((eh, EVENT_READ) :: made).
    rewrite Hdel', Hdel. simpl. rewrite <- app_assoc.
    repeat split; try done. constructor; [|done].
    unfold selected. by rewrite Hsel.
Qed.

(** X7: when every event a wait stored is for a registered descriptor and
    no handler unregisters anything in its callback, [DispatchEvents]
    returns the value of its [kevent()] call (-1 when the wait failed, the
    number of events otherwise), having called, for each event in batch
    order and for no other reason, the handler registered for the event's
    descriptor at the start of the pass (none after a failed wait), and
    every handler registered at the start is still registered. *)
Theorem DispatchEvents_registered w e :
  (∀ eh t eh' i, CallDelFd eh' i ∉ HandleEvent eh t) →
  Forall (λ ke, is_Some (ref e !! ident ke)) (wait_events w) →
  ∃ e' made,
    DispatchEvents_wait w e = Returned (wait_value w) e'
    ∧ delivered e' = delivered e ++ made
    ∧ Forall2 (λ ke call, ref e !! ident ke = Some call.1
                          ∧ call.2 = selected ke) (wait_events w) made
    ∧ ref e ⊆ ref e'.
Proof.
  intros Hno Hreg.
  destruct (dispatch_loop_registered
              (wait_value w) 0 (wait_events w) e e Hno (reflexivity _) Hreg)
    as (e' & made & Hd & Hsub & Hdel & Hmade).
  by exists e', made.
Qed.

(** *** A dispatch pass in which handlers close their own connection *)

Lemma invoke_own_descriptor eh t e :
  (∀ eh' i, CallDelFd eh' i ∈ HandleEvent eh t → GetFd eh' = GetFd eh) →
  (∀ fd, fd ≠ GetFd eh → is_Some (ref e !! fd) →
     is_Some (ref (invoke eh t e) !! fd))
  ∧ length (delivered (invoke eh t e)) = S (length (delivered e)).
Proof.
  intros Hown. unfold KQueue.invoke.
  assert ((∀ fd, fd ≠ GetFd eh → is_Some (ref e !! fd) →
             is_Some (ref (log_call eh t e) !! fd))
          ∧ length (delivered (log_call eh t e)) = S (length (delivered e)))
    as Hlog.
  { split; [done|]. simpl. rewrite length_app. simpl. lia. }
  revert Hlog. generalize (log_call eh t e).
  induction (HandleEvent eh t) as [|c cs IH]; intros e1 [Hkeep Hlen]; simpl;
    [done|].
  apply IH.
  { intros eh' i Hin. apply (Hown eh' i). by right. }
  destruct c as [eh' i|eh' i|eh' i]; simpl.
  - rewrite AddFd_delivered. split; [|done]. intros fd Hfd Hslot.
    destruct (Hkeep fd Hfd Hslot) as [x Hx]. exists x.
    by eapply lookup_weaken, AddFd_ref_grows.
  - rewrite DelFd_delivered. split; [|done]. intros fd Hfd Hslot.
    assert (GetFd eh' = GetFd eh) as Heq by (apply (Hown eh' i); by left).
    destruct (DelFd_cases eh' i e1) as [(_ & -> & _)|(_ & _ & _ & -> & _)];
      [by apply Hkeep|].
    rewrite lookup_delete_ne by congruence. by apply Hkeep.
  - done.
Qed.

Lemma dispatch_loop_own_descriptor n j ke_list : ∀ e,
  (∀ eh t eh' i, CallDelFd eh' i ∈ HandleEvent eh t → GetFd eh' = GetFd eh) →
  slots_match e →
  NoDup (ident <$> ke_list) →
  Forall (λ ke, is_Some (ref e !! ident ke)) ke_list →
  ∃ e', dispatch_loop n j ke_list e = Returned n e'
        ∧ length (delivered e')
          = (length (delivered e) + length ke_list)%nat.
Proof.
  revert j. induction ke_list as [|ke rest IH]; intros j e Hown Hm Hdup Hreg.
  { exists e. simpl. split; [done|lia]. }
  apply Forall_cons in Hreg as [[eh Heh] Hreg].
  rewrite fmap_cons in Hdup. apply NoDup_cons in Hdup as [Hfirst Hdup].
  pose proof (Hm _ _ Heh) as Hfd.
  assert (∀ t e1, ref e1 = ref e → delivered e1 = delivered e →
            ∃ e', dispatch_loop n (S j) rest (invoke eh t e1) = Returned n e'
                  ∧ length (delivered e')
                    = (length (delivered e) + length (ke :: rest))%nat)
    as Hrest.
  { intros t e1 Href Hdel.
    assert (slots_match e1) as Hm1 by (unfold slots_match; by rewrite Href).
    destruct (invoke_own_descriptor eh t e1 (Hown eh t)) as [Hkeep Hlen].
    destruct (IH (S j) (invoke eh t e1) Hown
                (invoke_slots_match eh t e1 Hm1)
                Hdup) as (e' & -> & Hlen').
    - eapply Forall_impl; [apply Forall_forall; intros ke' Hin|].
      + exact (conj Hin (proj1 (Forall_forall _ _) Hreg ke' Hin)).
      + intros ke' [Hin Hslot]. simpl. apply Hkeep.
        * rewrite Hfd. intros Heq. apply Hfirst.
          rewrite <- Heq. by apply list_elem_of_fmap_2.
        * by rewrite Href.
    - exists e'. split; [done|]. rewrite Hlen', Hlen, Hdel. simpl. lia. }
  simpl. destruct (tests_as_write ke); simpl; rewrite Heh; by apply Hrest.
Qed.

(** X8: when the descriptors of the events a wait stored are distinct and
    registered, and a handler unregisters at most its own descriptor in its
    callback (it may register others and ask for write events),
    [DispatchEvents] returns the value of its [kevent()] call (-1 when the
    wait failed, the number of events otherwise) after exactly one callback
    per event. *)
Theorem DispatchEvents_own_descriptor w e :
  (∀ eh t eh' i, CallDelFd eh' i ∈ HandleEvent eh t → GetFd eh' = GetFd eh) →
  slots_match e →
  NoDup (ident <$> wait_events w) →
  Forall (λ ke, is_Some (ref e !! ident ke)) (wait_events w) →
  ∃ e', DispatchEvents_wait w e = Returned (wait_value w) e'
        ∧ length (delivered e')
          = (length (delivered e) + length (wait_events w))%nat.
Proof. apply dispatch_loop_own_descriptor. Qed.

End Engine.

(** A tame run: descriptors 3 and 4 are registered and 3 is removed
    again. *)
Lemma tame_count_eq_occupied_witness :
  CurrentSetSize
    (KQueue.run_ops 1024
       [OpAddFd Examples.h3 0; OpAddFd Examples.h4 0; OpDelFd Examples.h3 0]
       new_engine).2
  = occupied
      (KQueue.run_ops 1024
         [OpAddFd Examples.h3 0; OpAddFd Examples.h4 0; OpDelFd Examples.h3 0]
         new_engine).2.
Proof.
  destruct (KQueue.run_ops 1024
              [OpAddFd Examples.h3 0; OpAddFd Examples.h4 0;
               OpDelFd Examples.h3 0] new_engine)
    as [[adds dels] e'] eqn:Hrun.
  apply (tame_count_eq_occupied 1024
           [OpAddFd Examples.h3 0; OpAddFd Examples.h4 0;
            OpDelFd Examples.h3 0] new_engine adds dels e');
    [reflexivity| |exact Hrun].
  repeat split; simpl; try lia. intros _. by eexists.
Defined.

Lemma AddFd_DelFd_round_trip_witness :
  ref (KQueue.DelFd 1024 Examples.h3 0
         (KQueue.AddFd 1024 Examples.h3 0 new_engine).2).2 = ∅.
Proof.
  apply (AddFd_DelFd_round_trip 1024 Examples.h3 0 0 new_engine);
    [reflexivity|lia].
Defined.

Lemma AddFd_twice_refused_witness :
  ref (KQueue.AddFd 1024 {| GetFd := 3; Readable := true |} 0 new_engine).2
    !! 3 = Some {| GetFd := 3; Readable := true |}
  ∧ KQueue.AddFd 1024 {| GetFd := 3; Readable := false |} 0
      (KQueue.AddFd 1024 {| GetFd := 3; Readable := true |} 0 new_engine).2
    = (false,
       (KQueue.AddFd 1024 {| GetFd := 3; Readable := true |} 0 new_engine).2).
Proof.
  apply (AddFd_twice_refused 1024 {| GetFd := 3; Readable := true |} 0 new_engine
           {| GetFd := 3; Readable := false |} 0); reflexivity.
Defined.


Lemma reachable_slots_match_witness :
  slots_match Examples.two_registered_ready.
Proof.
  apply (reachable_slots_match 1024 Examples.quiet).
  apply (reach_DispatchEvents _ _
           [EV_SET 3 EVFILT_READ 0] Examples.two_registered 1);
    [|reflexivity].
  do 2 apply reach_AddFd. apply reach_new.
Defined.


(** Descriptors 3 and 4 are both readable and their handlers call nothing
    back: two callbacks, in batch order. *)
Lemma DispatchEvents_registered_witness :
  ∃ e' made,
    KQueue.DispatchEvents_wait 1024 Examples.quiet
      (WaitEvents [EV_SET 4 EVFILT_READ 0; EV_SET 3 EVFILT_READ 0])
      Examples.two_registered
    = Returned 2 e'
    ∧ delivered e' = delivered Examples.two_registered ++ made
    ∧ Forall2 (λ ke call, ref Examples.two_registered !! ident ke = Some call.1
                          ∧ call.2 = selected ke)
        [EV_SET 4 EVFILT_READ 0; EV_SET 3 EVFILT_READ 0] made
    ∧ ref Examples.two_registered ⊆ ref e'.
Proof.
  apply (DispatchEvents_registered 1024 Examples.quiet
           (WaitEvents [EV_SET 4 EVFILT_READ 0; EV_SET 3 EVFILT_READ 0])
           Examples.two_registered).
  - intros eh t eh' i Hin. by apply elem_of_nil in Hin.
  - repeat constructor; by eexists.
Defined.

(** Descriptors 3 and 4 are readable and both handlers close their own
    connection: two callbacks, and the pass returns. *)
Lemma DispatchEvents_own_descriptor_witness :
  ∃ e',
    KQueue.DispatchEvents_wait 1024 Examples.closes_itself
      (WaitEvents [EV_SET 3 EVFILT_READ 0; EV_SET 4 EVFILT_READ 0])
      Examples.two_registered
    = Returned 2 e'
    ∧ length (delivered e') = 2%nat.
Proof.
  apply (DispatchEvents_own_descriptor 1024 Examples.closes_itself
           (WaitEvents [EV_SET 3 EVFILT_READ 0; EV_SET 4 EVFILT_READ 0])
           Examples.two_registered).
  - intros eh t eh' i. unfold Examples.closes_itself.
    destruct (decide (t = EVENT_READ)); [|by intros ?%elem_of_nil].
    by intros [= -> _]%list_elem_of_singleton.
  - unfold Examples.two_registered.
    do 2 apply AddFd_slots_match. by intros fd eh ?.
  - simpl. apply NoDup_cons.
    split; [by intros ?%list_elem_of_singleton|apply NoDup_singleton].
  - repeat constructor; by eexists.
Defined.

(** A wait that fails: -1 is returned and no handler is called. *)
Example DispatchEvents_wait_failed :
  KQueue.DispatchEvents_wait 1024 Examples.quiet WaitFailed
    Examples.two_registered
  = Returned (-1) Examples.two_registered.
Proof. reflexivity. Qed.

End KQueueMore.

(* ---------------------------------------------------------------------- *)
(** ** Further properties of the MySQL dispatcher                          *)
(* ---------------------------------------------------------------------- *)

Module MySQLMore.
Import MySQL MySQLProofs.

(** *** Unloading a module *)

(** The loop of [OnUnloadModule] over the last [length pre] indices. *)
Lemma unload_loop_prefix mod_ pre : ∀ suf results cbs,
  unload_loop (length pre) mod_
    {| qq := pre ++ suf; rq := results; callbacks := cbs |}
  = Some {| qq := filter (λ i, creator (q i) ≠ mod_) pre ++ suf;
            rq := results;
            callbacks := cbs ++
              ((λ i, OnError (q i) {| id := SQL_BAD_DBID; str := "" |})
                 <$> reverse (filter (λ i, creator (q i) = mod_) pre)) |}.
Proof.
  induction pre as [|x pre IH] using rev_ind; intros suf results cbs.
  { simpl. by rewrite app_nil_r. }
  rewrite length_app. simpl. rewrite Nat.add_1_r. simpl.
  rewrite <- app_assoc. simpl. rewrite list_lookup_middle by done. simpl.
  rewrite !filter_app.
  destruct (decide (creator (q x) = mod_)) as [Hx|Hx].
  - rewrite (filter_cons_False (λ i, creator (q i) ≠ mod_)) by naive_solver.
    rewrite (filter_cons_True (λ i, creator (q i) = mod_)) by done.
    rewrite !filter_nil, app_nil_r, reverse_snoc.
    unfold fail_and_erase. simpl. rewrite delete_middle, IH.
    by rewrite <- app_assoc.
  - rewrite (filter_cons_True (λ i, creator (q i) ≠ mod_)) by done.
    rewrite (filter_cons_False (λ i, creator (q i) = mod_)) by done.
    rewrite !filter_nil, app_nil_r, <- app_assoc. simpl. by rewrite IH.
Qed.

Lemma OnUnloadModule_queues mod_ m :
  Z.of_nat (length (qq m)) < 2 ^ 32 →
  ∃ m',
    OnUnloadModule mod_ m = Some m'
    ∧ qq m' = filter (λ i, creator (q i) ≠ mod_) (qq m)
    ∧ rq m' = []
    ∧ callbacks m'
      = callbacks m
        ++ ((λ i, OnError (q i) {| id := SQL_BAD_DBID; str := "" |})
              <$> reverse (filter (λ i, creator (q i) = mod_) (qq m)))
        ++ foldl deliver [] (rq m).
Proof.
  intros Hlen. destruct m as [jobs results cbs]. unfold OnUnloadModule.
  simpl in *. rewrite to_uint_small, Nat2Z.id by lia.
  pose proof (unload_loop_prefix mod_ jobs [] results cbs) as Hloop.
  rewrite !app_nil_r in Hloop. rewrite Hloop. simpl.
  eexists. repeat split. unfold OnNotify. simpl.
  by rewrite foldl_deliver, app_assoc.
Qed.

(** X9: with fewer than 2^32 queued queries (the range of its
    [unsigned int] index), [OnUnloadModule] returns: it fails the queued
    queries created by the module with [SQL_BAD_DBID], the last queued
    first, and removes them; it keeps the queries of other modules in their
    order; then it drains the result queue, delivering every waiting result
    in order, and leaves it empty. *)
Theorem OnUnloadModule_removes_the_modules_queries mod_ m :
  Z.of_nat (length (qq m)) < 2 ^ 32 →
  ∃ m',
    OnUnloadModule mod_ m = Some m'
    ∧ qq m' = filter (λ i, creator (q i) ≠ mod_) (qq m)
    ∧ rq m' = []
    ∧ callbacks m'
      = callbacks m
        ++ ((λ i, OnError (q i) {| id := SQL_BAD_DBID; str := "" |})
              <$> reverse (filter (λ i, creator (q i) = mod_) (qq m)))
        ++ foldl deliver [] (rq m).
Proof. apply OnUnloadModule_queues. Qed.

(** X10: when [OnUnloadModule], with fewer than 2^32 queries queued,
    removes a job of the unloaded module that the worker has in flight, what
    the worker does with the result depends on what is left in the queue:
    if a query of another module (a different object) is queued, the result
    is dropped and nothing is posted; if no query is left, the worker reads
    the front of the empty queue. *)
Theorem in_flight_job_unloaded mod_ i res m :
  Z.of_nat (length (qq m)) < 2 ^ 32 →
  creator (q i) = mod_ →
  (∀ other, other ∈ qq m → creator (q other) ≠ mod_ →
     addr (q other) ≠ addr (q i)) →
  ∃ m',
    OnUnloadModule mod_ m = Some m'
    ∧ Run_finish i res m'
      = match filter (λ i, creator (q i) ≠ mod_) (qq m) with
        | [] => FrontOfEmptyQueue
        | _ => Dropped m'
        end.
Proof.
  intros Hlen Hmod Hdistinct.
  destruct (OnUnloadModule_queues mod_ m Hlen) as (m' & Hunload & Hqq & _).
  exists m'. split; [done|]. unfold Run_finish. rewrite Hqq.
  destruct (filter _ (qq m)) as [|front rest] eqn:Hleft; [done|].
  assert (front ∈ filter (λ i, creator (q i) ≠ mod_) (qq m)) as Hin.
  { rewrite Hleft. by left. }
  apply list_elem_of_filter in Hin as [Hother Hin].
  by rewrite decide_False by by apply Hdistinct.
Qed.

Lemma in_flight_job_unloaded_witness :
  ∃ m',
    OnUnloadModule 9
      {| qq := [ {| q := {| addr := 1; creator := 9 |}; query := "a";
                    c := 7%nat |};
                 {| q := {| addr := 2; creator := 8 |}; query := "b";
                    c := 7%nat |} ];
         rq := []; callbacks := [] |}
    = Some m'
    ∧ Run_finish
        {| q := {| addr := 1; creator := 9 |}; query := "a"; c := 7%nat |}
        (MySQLresult_error {| id := SQL_QREPLY_FAIL; str := "" |} 0 0) m'
      = Dropped m'.
Proof.
  apply (in_flight_job_unloaded 9%nat
           {| q := {| addr := 1; creator := 9 |}; query := "a"; c := 7%nat |}
           (MySQLresult_error {| id := SQL_QREPLY_FAIL; str := "" |} 0 0)
           {| qq := [ {| q := {| addr := 1; creator := 9 |}; query := "a";
                         c := 7%nat |};
                      {| q := {| addr := 2; creator := 8 |}; query := "b";
                         c := 7%nat |} ];
              rq := []; callbacks := [] |}); [simpl; lia|done|].
  intros j [->|[->|?%elem_of_nil]%elem_of_cons]%elem_of_cons; done.
Defined.

(** The three queued jobs of module 9 are failed, the last one first. *)
Lemma OnUnloadModule_removes_the_modules_queries_witness :
  ∃ m',
    OnUnloadModule 9 Examples.scan_demo = Some m'
    ∧ qq m' = filter (λ i, creator (q i) ≠ 9%nat) (qq Examples.scan_demo)
    ∧ rq m' = []
    ∧ callbacks m'
      = callbacks Examples.scan_demo
        ++ ((λ i, OnError (q i) {| id := SQL_BAD_DBID; str := "" |})
              <$> reverse (filter (λ i, creator (q i) = 9%nat)
                             (qq Examples.scan_demo)))
        ++ foldl deliver [] (rq Examples.scan_demo).
Proof.
  apply (OnUnloadModule_removes_the_modules_queries 9%nat Examples.scan_demo).
  simpl. lia.
Defined.

(** *** The withdrawal scan of [OnRehash] *)

Lemma scan_passes_add a b conn s :
  scan_passes (a + b) conn s
  = match scan_passes a conn s with
    | Next s' => scan_passes b conn s'
    | OutOfRange s' => OutOfRange s'
    end.
Proof.
  revert s. induction a as [|a IH]; intros s; simpl; [done|].
  destruct (scan_pass conn s); [apply IH|done].
Qed.

(** X11: the scan has no way out but the access outside the queue. For a
    queue of fewer than 2^32 jobs, it is still running after every number of
    passes up to the length of the queue, and every longer run has ended by
    indexing [qq[4294967295]], after the jobs of the connection were failed
    and removed. *)
Theorem scan_ends_out_of_range conn m k :
  Z.of_nat (length (qq m)) < 2 ^ 32 →
  ((k ≤ length (qq m))%nat → ∃ s, scan_passes k conn (scan_start m) = Next s)
  ∧ ((length (qq m) < k)%nat →
       ∃ s, scan_passes k conn (scan_start m) = OutOfRange s
            ∧ j s = 4294967295
            ∧ at_index (qq (module s)) (j s) = None
            ∧ qq (module s) = filter (λ i, c i ≠ conn) (qq m)).
Proof.
  intros Hlen. destruct m as [jobs results cbs]. simpl in *.
  pose proof (scan_passes_prefix conn jobs [] results cbs Hlen) as Hscan.
  rewrite !app_nil_r in Hscan. unfold scan_start. simpl. split; intros Hk.
  - replace (length jobs) with (k + (length jobs - k))%nat in Hscan at 1
      by lia.
    rewrite scan_passes_add in Hscan.
    destruct (scan_passes k conn _); [eauto|done].
  - replace k with (length jobs + S (k - S (length jobs)))%nat by lia.
    rewrite scan_passes_add, Hscan. simpl scan_passes.
    pose proof (length_filter (λ i, c i ≠ conn) jobs) as Hfilter.
    rewrite scan_pass_after_index_0 by (simpl; lia).
    eexists. split; [done|]. simpl. split; [done|]. split; [|done].
    apply at_index_outside. change (to_uint (-1)) with 4294967295. lia.
Qed.

(** *** The worker and the reactor, interleaved *)

Lemma answered_deliver items :
  callback_query <$> foldl deliver [] items = rq_q <$> items.
Proof.
  induction items as [|i items IH]; [done|]. simpl.
  rewrite foldl_deliver, fmap_app, IH. unfold deliver. simpl.
  by destruct (decide _).
Qed.

Lemma step_in_order all w s :
  in_order all w →
  ∃ w', step w s = Some w' ∧ in_order (all ++ submitted [s]) w'.
Proof.
  intros (k & Hk & Hans & Hqq & Hfly).
  destruct s as [query qs conn| | |res]; simpl.
  - eexists. split; [done|]. exists k. simpl.
    rewrite length_app. rewrite take_app_le by lia. rewrite drop_app_le by lia.
    split; [lia|]. split; [done|]. rewrite Hqq. split; [done|].
    destruct Hfly as [?|Hfly]; [by left|]. rewrite Hqq in Hfly.
    destruct (drop k all); [by left|by right].
  - rewrite app_nil_r. eexists. split; [done|]. exists k. simpl.
    unfold answered in *. simpl.
    rewrite foldl_deliver, fmap_app, answered_deliver, app_nil_r.
    by rewrite <- Hans.
  - rewrite app_nil_r. destruct (in_flight w) eqn:Hw.
    + eexists. split; [done|]. exists k. by rewrite Hw.
    + eexists. split; [done|]. exists k. simpl. unfold Run_take. eauto.
  - rewrite app_nil_r. destruct (in_flight w) as [i|] eqn:Hw.
    + destruct Hfly as [?|Hfly]; [done|].
      destruct (qq (sql w)) as [|i' rest] eqn:Hjobs; [done|].
      injection Hfly as ->.
      rewrite (Run_finish_posts i' rest) by done.
      eexists. split; [done|]. exists (S k). simpl.
      assert (all !! k = Some i') as Hlookup.
      { rewrite <- (Nat.add_0_r k), <- lookup_drop, <- Hqq. done. }
      rewrite (drop_S _ _ _ Hlookup) in Hqq. injection Hqq as ->.
      split; [by apply lookup_lt_Some in Hlookup|].
      rewrite (take_S_r _ _ _ Hlookup), fmap_app.
      unfold answered in *. simpl. rewrite fmap_app, app_assoc, Hans.
      eauto.
    + eexists. split; [done|]. exists k. by rewrite Hw; eauto.
Qed.

Lemma run_steps_in_order steps : ∀ all w,
  in_order all w →
  ∃ w', run_steps w steps = Some w' ∧ in_order (all ++ submitted steps) w'.
Proof.
  induction steps as [|s steps IH]; intros all w Hw.
  { exists w. by rewrite app_nil_r. }
  destruct (step_in_order all w s Hw) as (w1 & Hstep & Hw1).
  destruct (IH _ _ Hw1) as (w' & Hrun & Hw').
  exists w'. split; [simpl; by rewrite Hstep|].
  assert (submitted (s :: steps) = submitted [s] ++ submitted steps) as ->.
  { unfold submitted. simpl. by destruct s. }
  by rewrite app_assoc.
Qed.

(** X12: with one dispatcher thread and no teardown, however the
    submissions of the reactor thread, its drains of the result queue and
    the two locked parts of the worker's turn interleave, the worker never
    reads the front of an empty queue, and the queries answered so far
    (called back, or waiting in the result queue) are the first k submitted,
    in submission order, while the other submitted queries are still
    queued, in order: no query is answered twice, skipped or overtaken. *)
Theorem results_in_submission_order steps :
  ∃ w k,
    run_steps start steps = Some w
    ∧ answered (sql w) = q <$> take k (submitted steps)
    ∧ qq (sql w) = drop k (submitted steps).
Proof.
  destruct (run_steps_in_order steps [] start) as (w & Hrun & k & _ & Hans & Hqq & _).
  { exists 0%nat. simpl. eauto. }
  exists w, k. eauto.
Qed.

(** *** A query from submission to callback *)

Lemma push_fields_err fields row n cols : ∀ r r',
  push_fields fields row n cols r = Some r' → err r' = err r.
Proof.
  induction cols as [|k cols IH]; intros r r'; simpl; [by intros [= <-]|].
  destruct (push_back_at _ _ _); simpl; [|done].
  intros Hpush. by rewrite (IH _ _ Hpush).
Qed.

Lemma fetch_rows_err res fetched : ∀ n r r',
  fetch_rows res fetched n r = Some r' → err r' = err r.
Proof.
  induction fetched as [|row fetched IH]; intros n r r'; simpl;
    [by intros [= <-]|].
  destruct (mysql_num_fields res =? 0); [by intros [= <-]|].
  destruct (mysql_fetch_fields res) as [fields|].
  - destruct (push_fields _ _ _ _ _) as [r1|] eqn:Hpush; simpl; [|done].
    intros Hrest. rewrite (IH _ _ _ Hrest). simpl.
    by rewrite (push_fields_err _ _ _ _ _ _ Hpush).
  - intros Hrest. by rewrite (IH _ _ _ Hrest).
Qed.

Lemma MySQLresult_new_err res affected_rows r :
  MySQLresult_new res affected_rows = Some r → id (err r) = SQL_NO_ERROR.
Proof.
  unfold MySQLresult_new. destruct res as [res|].
  - intros Hrows. rewrite (fetch_rows_err _ _ _ _ _ Hrows).
    by destruct (1 <=? affected_rows).
  - intros [= <-]. by destruct (1 <=? affected_rows).
Qed.

(** X13: a query submitted to an idle dispatcher is answered by exactly
    one callback at the next drain: [OnResult] with the result set when the
    connection check and [mysql_real_query] succeeded, and otherwise
    [OnError] with [SQL_QREPLY_FAIL] and the text "<errno>: <error>"; both
    queues are empty afterwards. *)
Theorem query_answered_once run res query qs conn m :
  qq m = [] →
  DoBlockingQuery run = Some res →
  ∃ w,
    run_steps {| sql := m; in_flight := None |}
      [DoSubmit query qs conn; DoTake; DoFinish res; DoNotify] = Some w
    ∧ qq (sql w) = [] ∧ rq (sql w) = [] ∧ in_flight w = None
    ∧ callbacks (sql w)
      = callbacks m ++ foldl deliver [] (rq m)
        ++ [if CheckConnection run && (mysql_real_query run =? 0)
            then OnResult query res
            else OnError query
                   {| id := SQL_QREPLY_FAIL;
                      str := pretty (mysql_errno run) +:+ ": "
                             +:+ mysql_error run |}].
Proof.
  intros Hqq Hres. destruct m as [jobs results cbs]. simpl in Hqq. subst jobs.
  eexists. simpl. unfold Run_finish. simpl. rewrite decide_True by done.
  split; [done|]. simpl. repeat split.
  rewrite foldl_app. simpl. rewrite foldl_deliver.
  unfold deliver at 1. cbn [rq_q r]. rewrite <- app_assoc. do 3 f_equal.
  unfold DoBlockingQuery in Hres.
  destruct (_ && _).
  - by rewrite decide_True by by eapply MySQLresult_new_err.
  - injection Hres as <-. by rewrite decide_False.
Qed.

(** *** What a result set holds *)

Lemma push_fields_exact fields row n cols : ∀ r cells,
  fieldlists r !! n = Some cells →
  push_fields fields row n cols r
  = Some {| err := err r; currentrow := currentrow r; rows := rows r;
            colnames := colnames r ++ ((λ k, default "" (fields k)) <$> cols);
            fieldlists :=
              <[n := cells ++ ((λ k, entry_of_cell (row k)) <$> cols)]>
                (fieldlists r) |}.
Proof.
  induction cols as [|k cols IH]; intros r cells Hn.
  { simpl. rewrite !app_nil_r, list_insert_id by done. by destruct r. }
  simpl. unfold push_back_at. rewrite Hn. simpl.
  erewrite IH.
  2:{ simpl. apply list_lookup_insert_eq. by eapply lookup_lt_Some. }
  simpl. by rewrite list_insert_insert_eq, <- !app_assoc.
Qed.

(** The row loop of the constructor on a handle with columns and column
    descriptors, for a statement that reported no affected rows. *)
Lemma fetch_rows_select res fields fetched : ∀ seen r,
  0 < mysql_num_fields res →
  mysql_fetch_fields res = Some fields →
  rows r = Z.of_nat (length seen) →
  fieldlists r = cells_of res <$> seen →
  Z.of_nat (length seen + length fetched) < 2 ^ 31 →
  ∃ r',
    fetch_rows res fetched (length seen) r = Some r'
    ∧ rows r' = Z.of_nat (length (seen ++ fetched))
    ∧ fieldlists r' = cells_of res <$> (seen ++ fetched)
    ∧ colnames r'
      = match fetched with [] => colnames r | _ => names_of res fields end
    ∧ currentrow r' = currentrow r.
Proof.
  induction fetched as [|row fetched IH]; intros seen r Hnumf Hfields Hrows Hfl Hfit.
  { exists r. simpl. by rewrite app_nil_r. }
  simpl in Hfit |- *. rewrite Hrows, Hfl, length_fmap.
  rewrite (to_uint_small (Z.of_nat _)), (to_uint_small (_ + 1)) by lia.
  destruct (Z.of_nat (length seen) <? _) eqn:Hlt; [|bool_to_Z; lia].
  destruct (mysql_num_fields res =? 0) eqn:Hzero; [bool_to_Z; lia|].
  rewrite Hfields. simpl.
  erewrite push_fields_exact.
  2:{ simpl. rewrite lookup_app_r by (rewrite length_fmap; lia).
      by rewrite length_fmap, Nat.sub_diag. }
  simpl.
  destruct (IH (seen ++ [row])
              {| err := err r; currentrow := currentrow r;
                 rows := Z.of_nat (length seen) + 1;
                 colnames := names_of res fields;
                 fieldlists := (cells_of res <$> seen) ++ [cells_of res row] |})
    as (r' & Hrun & Hrows' & Hfl' & Hcols' & Hcur'); simpl; try done.
  - rewrite length_app. simpl. lia.
  - by rewrite fmap_app.
  - rewrite length_app. simpl. lia.
  - rewrite length_app, Nat.add_1_r in Hrun. simpl in Hrun.
    exists r'. rewrite <- Hrun, <- !app_assoc in *. simpl in *.
    split.
    { f_equal. f_equal.
      replace (length seen) with (length (cells_of res <$> seen) + 0)%nat
        at 1 by (rewrite length_fmap; lia).
      by rewrite insert_app_r. }
    repeat split; try done. by destruct fetched.
Qed.

(** X14: for a statement that reports less than one affected row (as a
    [SELECT] read through [mysql_use_result] does) and a handle with
    columns and column descriptors, the result holds exactly what was
    fetched: [Rows()] is the number of fetched rows, [GetValue(k, c)] is
    the cell [c] of the k-th fetched row (the empty entry for a NULL cell),
    and outside these rows and columns it is the empty entry. *)
Theorem select_result_holds_fetched_rows res fields affected_rows :
  affected_rows < 1 →
  0 < mysql_num_fields res < 2 ^ 31 →
  mysql_fetch_fields res = Some fields →
  Z.of_nat (length (mysql_fetch_row res)) < 2 ^ 31 →
  ∃ r,
    MySQLresult_new (Some res) affected_rows = Some r
    ∧ Rows r = Z.of_nat (length (mysql_fetch_row res))
    ∧ (∀ k row column,
         mysql_fetch_row res !! k = Some row →
         0 <= column < mysql_num_fields res →
         GetValue r (Z.of_nat k) column
         = Some (entry_of_cell (row (Z.to_nat column))))
    ∧ (∀ k column,
         ¬ (0 <= k < Rows r ∧ 0 <= column < mysql_num_fields res) →
         GetValue r k column = Some SQLEntry_null).
Proof.
  intros Haff Hnumf Hfields Hfit. unfold MySQLresult_new.
  destruct (1 <=? affected_rows) eqn:Hge; [bool_to_Z; lia|].
  destruct (fetch_rows_select res fields (mysql_fetch_row res) []
              {| err := {| id := SQL_NO_ERROR; str := "" |}; currentrow := 0;
                 rows := 0; colnames := []; fieldlists := [] |})
    as (r & Hrun & Hrows & Hfl & _ & Hcur); simpl; try done; try lia.
  simpl in *. exists r. split; [done|]. split; [done|].
  assert (∀ row, Z.of_nat (length (cells_of res row)) = mysql_num_fields res)
    as Hwidth.
  { intros row. unfold cells_of. rewrite length_fmap, length_seq. lia. }
  split.
  - intros k row column Hk Hcol. unfold GetValue. rewrite Hrows, Hfl.
    apply lookup_lt_Some in Hk as Hklt.
    destruct (_ && _) eqn:Hguard; [|bool_to_Z; lia].
    rewrite at_index_nat, list_lookup_fmap, Hk. simpl.
    rewrite Hwidth, to_int_small by lia.
    destruct (column <? _) eqn:Hlt; [|bool_to_Z; lia].
    rewrite <- (Z2Nat.id column) at 1 by lia.
    rewrite at_index_nat. unfold cells_of.
    rewrite list_lookup_fmap, lookup_seq_lt by lia. done.
  - intros k column Hout. unfold GetValue, Rows in *. rewrite Hrows, Hfl in *.
    destruct (_ && _) eqn:Hguard; [|done].
    apply andb_true_iff in Hguard as [Hguard ?].
    apply andb_true_iff in Hguard as [? ?]. bool_to_Z.
    destruct (at_index_in_range (cells_of res <$> mysql_fetch_row res) k)
      as (cells & -> & Hcells); [rewrite length_fmap; lia|].
    rewrite list_lookup_fmap in Hcells.
    destruct (mysql_fetch_row res !! Z.to_nat k) as [row|]; [|done].
    injection Hcells as <-. simpl. rewrite Hwidth, to_int_small by lia.
    destruct (column <? _) eqn:Hlt; [bool_to_Z; lia|done].
Qed.

(** X15: the column names of such a result are taken while rows are
    fetched: [GetCols] gives one name per column, in column order (the
    empty string for a NULL name), when at least one row was fetched, and
    no name at all when the statement returned no row. *)
Theorem select_result_column_names res fields affected_rows :
  affected_rows < 1 →
  0 < mysql_num_fields res →
  mysql_fetch_fields res = Some fields →
  Z.of_nat (length (mysql_fetch_row res)) < 2 ^ 31 →
  ∃ r,
    MySQLresult_new (Some res) affected_rows = Some r
    ∧ (mysql_fetch_row res = [] → GetCols r = [])
    ∧ (mysql_fetch_row res ≠ [] →
         length (GetCols r) = Z.to_nat (mysql_num_fields res)
         ∧ ∀ k, (k < Z.to_nat (mysql_num_fields res))%nat →
                GetCols r !! k = Some (default "" (fields k))).
Proof.
  intros Haff Hnumf Hfields Hfit. unfold MySQLresult_new.
  destruct (1 <=? affected_rows) eqn:Hge; [bool_to_Z; lia|].
  destruct (fetch_rows_select res fields (mysql_fetch_row res) []
              {| err := {| id := SQL_NO_ERROR; str := "" |}; currentrow := 0;
                 rows := 0; colnames := []; fieldlists := [] |})
    as (r & Hrun & _ & _ & Hcols & _); simpl; try done; try lia.
  simpl in *. exists r. split; [done|]. unfold GetCols. rewrite Hcols.
  split; [by intros ->|]. intros Hrows.
  destruct (mysql_fetch_row res); [done|]. unfold names_of.
  split; [by rewrite length_fmap, length_seq|].
  intros k Hk. by rewrite list_lookup_fmap, lookup_seq_lt by done.
Qed.

(** X16: without a result handle (a statement that returns no rows, such
    as an [UPDATE]), the result has as many rows as the statement affected
    (none when that number is below 1), all of them empty: every
    [GetValue] is the empty entry, [GetCols] is empty, and [GetRow] returns
    true with an empty row [Rows()] times and false from then on. *)
Theorem result_without_handle affected_rows :
  ∃ r,
    MySQLresult_new None affected_rows = Some r
    ∧ Rows r = Z.max affected_rows 0
    ∧ GetCols r = []
    ∧ (∀ row column, GetValue r row column = Some SQLEntry_null)
    ∧ (∀ k, GetRow_times k r
            = Some (replicate (k `min` Z.to_nat (Rows r)) (true, [])
                    ++ replicate (k - Z.to_nat (Rows r)) (false, []))).
Proof.
  unfold MySQLresult_new. eexists. split; [done|].
  assert (∀ n, GetRow_times n
            {| err := {| id := SQL_NO_ERROR; str := "" |}; currentrow := 0;
               rows := Z.max affected_rows 0; colnames := [];
               fieldlists := replicate (Z.to_nat affected_rows) [] |}
          = Some (replicate (n `min` Z.to_nat (Z.max affected_rows 0))
                    (true, [])
                  ++ replicate (n - Z.to_nat (Z.max affected_rows 0))
                       (false, []))) as Hrows.
  { intros n. rewrite GetRow_times_from;
      [|done|simpl; rewrite length_replicate; lia].
    simpl. rewrite drop_0, Nat.sub_0_r.
    by rewrite !take_replicate, fmap_replicate, Nat.min_assoc,
      (Nat.min_l (_ `min` _)) by lia. }
  destruct (1 <=? affected_rows) eqn:Hge; bool_to_Z; unfold Rows; simpl.
  - rewrite Z.max_l by lia. rewrite Z.max_l in Hrows by lia.
    repeat split; try done.
    intros row column. unfold GetValue. simpl.
    destruct (_ && _) eqn:Hguard; [|done].
    apply andb_true_iff in Hguard as [Hguard ?].
    apply andb_true_iff in Hguard as [? ?]. bool_to_Z.
    destruct (at_index_in_range
                (replicate (Z.to_nat affected_rows) ([] : SQLEntries)) row)
      as (cells & -> & [-> _]%lookup_replicate_1);
      [rewrite length_replicate; lia|].
    cbn [mbind option_bind length]. rewrite to_int_small by lia.
    change (Z.of_nat 0) with 0.
    destruct (column <? 0) eqn:Hlt; [bool_to_Z; lia|done].
  - rewrite Z.max_r by lia. repeat split; try done.
    + intros row column. unfold GetValue. simpl.
      destruct (_ && _) eqn:Hguard; [bool_to_Z; lia|done].
    + intros k. specialize (Hrows k). rewrite Z.max_r in Hrows by lia.
      rewrite (Z2Nat.nonpos affected_rows) in Hrows by lia. done.
Qed.

(** *** Queries with parameters *)

Lemma app_cons_s a s t : String a s +:+ t = String a (s +:+ t).
Proof. reflexivity. Qed.

Lemma app_nil_l_s s : "" +:+ s = s.
Proof. reflexivity. Qed.

Lemma app_nil_r_s s : s +:+ "" = s.
Proof. induction s as [|a s IH]; [done|]. by rewrite app_cons_s, IH. Qed.

Lemma app_assoc_s s t u : s +:+ t +:+ u = (s +:+ t) +:+ u.
Proof. induction s as [|a s IH]; [done|]. by rewrite !app_cons_s, IH. Qed.

Lemma app_snoc_s s a t : (s +:+ String a "") +:+ t = s +:+ String a t.
Proof. by rewrite <- app_assoc_s. Qed.

Section Submit.

Variable MAXBUF : Z.
Variable mysql_escape_string : string → string.
Variable isalnum : Ascii.ascii → bool.

Local Abbreviation escaped := (escaped MAXBUF mysql_escape_string).
Local Abbreviation expand_list := (expand_list MAXBUF mysql_escape_string).
Local Abbreviation submit_list := (submit_list MAXBUF mysql_escape_string).
Local Abbreviation expand_map :=
  (expand_map MAXBUF mysql_escape_string isalnum).
Local Abbreviation submit_map :=
  (submit_map MAXBUF mysql_escape_string isalnum).
Local Abbreviation alnum := (alnum isalnum).
Local Abbreviation ends_name := (ends_name isalnum).

Lemma escaped_fits parm :
  Z.of_nat (String.length (mysql_escape_string parm)) < MAXBUF →
  escaped parm = Some (mysql_escape_string parm).
Proof. intros Hfit. unfold MySQL.escaped. by apply Z.ltb_lt in Hfit as ->. Qed.

(** Text without a placeholder is copied. *)
Lemma expand_list_app pre rest p param : ∀ res,
  lacks "?" pre →
  expand_list (pre +:+ rest) p param res
  = expand_list rest p param (res +:+ pre).
Proof.
  induction pre as [|a pre IH]; intros res Hpre.
  { by rewrite app_nil_r_s. }
  destruct Hpre as [Ha Hpre]. rewrite app_cons_s. simpl.
  rewrite decide_True by done. by rewrite IH, app_snoc_s.
Qed.

Lemma expand_list_pieces pieces p : ∀ param res,
  Z.of_nat (length p) < 2 ^ 32 →
  Forall (lacks "?") pieces →
  (∀ k parm, (S k < length pieces)%nat → p !! (param + k)%nat = Some parm →
     Z.of_nat (String.length (mysql_escape_string parm)) < MAXBUF) →
  expand_list (String.concat "?" pieces) p (Z.of_nat param) res
  = Some (res +:+ weave pieces (mysql_escape_string <$> drop param p)).
Proof.
  induction pieces as [|piece pieces IH]; intros param res Hlen Hlack Hfit.
  { simpl. by rewrite app_nil_r_s. }
  apply Forall_cons in Hlack as [Hpiece Hlack].
  destruct pieces as [|piece' pieces].
  { simpl. rewrite <- (app_nil_r_s piece) at 1.
    by rewrite expand_list_app. }
  change (String.concat "?" (piece :: piece' :: pieces))
    with (piece +:+ String "?" (String.concat "?" (piece' :: pieces))).
  rewrite expand_list_app by done.
  change (weave (piece :: piece' :: pieces) ?args)
    with (piece +:+ default "" (head args)
          +:+ weave (piece' :: pieces) (tail args)).
  cbn [MySQL.expand_list]. rewrite decide_False by naive_solver.
  rewrite at_index_nat.
  destruct (p !! param) as [parm|] eqn:Hparm.
  - rewrite escaped_fits.
    2:{ apply (Hfit 0%nat); [simpl; lia|by rewrite Nat.add_0_r]. }
    simpl. apply lookup_lt_Some in Hparm as Hlt.
    rewrite to_uint_small by lia.
    replace (Z.of_nat param + 1) with (Z.of_nat (S param)) by lia.
    rewrite IH; [|done|done|].
    + rewrite (drop_S _ _ _ Hparm). simpl. by rewrite !app_assoc_s.
    + intros k parm' Hk Hlook. apply (Hfit (S k)); [simpl in *; lia|].
      by rewrite <- Nat.add_succ_comm.
  - rewrite IH; [|done|done|].
    + rewrite drop_ge by (by apply lookup_ge_None_1).
      rewrite fmap_nil. cbn [head tail default].
      generalize (weave (piece' :: pieces) []). intros woven.
      by rewrite !app_assoc_s, app_nil_r_s.
    + intros k parm' Hk Hlook. apply lookup_ge_None_1 in Hparm.
      apply lookup_lt_Some in Hlook. lia.
Qed.

(** X17: with fewer than 2^32 parameters (the range of the [unsigned int]
    that counts them), the query of [submit] with a parameter list is the
    text between the [?] placeholders with the escaped parameters put in,
    the k-th parameter for the k-th placeholder; a placeholder for which no
    parameter is left is deleted, and parameters that are left over are
    ignored. Substituted text is not scanned again. The parameters that
    are used have to fit, escaped, into the buffer of [MAXBUF] bytes. *)
Theorem submit_list_weaves call pieces p this m :
  Z.of_nat (length p) < 2 ^ 32 →
  pieces ≠ [] →
  Forall (lacks "?") pieces →
  (∀ k parm, (S k < length pieces)%nat → p !! k = Some parm →
     Z.of_nat (String.length (mysql_escape_string parm)) < MAXBUF) →
  submit_list call (String.concat "?" pieces) p this m
  = Some (submit call (weave pieces (mysql_escape_string <$> p)) this m).
Proof.
  intros Hlen _ Hlack Hfit. unfold MySQL.submit_list.
  pose proof (expand_list_pieces pieces p 0%nat "" Hlen Hlack) as Hexpand.
  change (Z.of_nat 0) with 0 in Hexpand. rewrite Hexpand; [done|].
  intros k parm Hk Hlook. by apply (Hfit k).
Qed.

(** X18: [submit] does not compare the length of an escaped parameter
    with the buffer: when the parameter of the first placeholder, escaped,
    has [MAXBUF] characters or more, the escape runs over the end of the
    buffer (whatever the rest of the query is). *)
Theorem submit_list_overruns_buffer call pre rest parm p this m :
  lacks "?" pre →
  MAXBUF <= Z.of_nat (String.length (mysql_escape_string parm)) →
  submit_list call (pre +:+ String "?" rest) (parm :: p) this m = None.
Proof.
  intros Hpre Hlong. unfold MySQL.submit_list.
  rewrite expand_list_app by done. cbn [MySQL.expand_list].
  rewrite decide_False by naive_solver.
  change 0 with (Z.of_nat 0). rewrite at_index_nat. simpl.
  unfold MySQL.escaped. by apply Z.ltb_ge in Hlong as ->.
Qed.

(** Text without a [$] is copied. *)
Lemma expand_map_app pre rest p : ∀ res,
  lacks "$" pre →
  expand_map (pre +:+ rest) p res = expand_map rest p (res +:+ pre).
Proof.
  induction pre as [|a pre IH]; intros res Hpre.
  { by rewrite app_nil_r_s. }
  destruct Hpre as [Ha Hpre]. rewrite app_cons_s. simpl.
  rewrite decide_True by done. by rewrite IH, app_snoc_s.
Qed.

Lemma expand_map_plain q p res :
  lacks "$" q → expand_map q p res = Some (res +:+ q).
Proof.
  intros Hq. rewrite <- (app_nil_r_s q) at 1. by rewrite expand_map_app.
Qed.

Lemma expand_map_field name rest p res :
  alnum name → ends_name rest →
  expand_map (String "$" (name +:+ rest)) p res
  = match p !! name with
    | Some parm => text ← escaped parm; expand_map rest p (res +:+ text)
    | None => expand_map rest p res
    end.
Proof.
  intros Hname Hrest. cbn [MySQL.expand_map].
  rewrite decide_False by naive_solver.
  match goal with
  | |- ?field_loop (name +:+ rest) "" = _ =>
      enough (∀ field,
                field_loop (name +:+ rest) field
                = match p !! (field +:+ name) with
                  | Some parm =>
                      text ← escaped parm; expand_map rest p (res +:+ text)
                  | None => expand_map rest p res
                  end) as Hloop by apply (Hloop "")
  end.
  induction name as [|a name IH]; intros field.
  - rewrite app_nil_r_s. change ("" +:+ rest) with rest.
    destruct rest as [|d rest]; simpl in Hrest |- *.
    + destruct (p !! field); [|done]. by destruct (escaped _).
    + by rewrite Hrest.
  - destruct Hname as [Ha Hname]. rewrite app_cons_s. rewrite Ha.
    rewrite (IH Hname). by rewrite app_snoc_s.
Qed.

(** X19: in [submit] with a parameter map, a query with one [$name]
    placeholder, where the name is the longest run of alphanumeric
    characters after the [$], is submitted with the placeholder replaced by
    the escaped value of the key [name], and with the placeholder deleted
    when the map has no such key; the text around it is copied. *)
Theorem submit_map_replaces_name call pre name rest p this m :
  lacks "$" pre → alnum name → ends_name rest → lacks "$" rest →
  (∀ parm, p !! name = Some parm →
     Z.of_nat (String.length (mysql_escape_string parm)) < MAXBUF) →
  submit_map call (pre +:+ String "$" (name +:+ rest)) p this m
  = Some (submit call
            (pre +:+ default "" (mysql_escape_string <$> p !! name) +:+ rest)
            this m).
Proof.
  intros Hpre Hname Hends Hrest Hfit. unfold MySQL.submit_map.
  rewrite expand_map_app, expand_map_field by done.
  destruct (p !! name) as [parm|]; simpl.
  - rewrite escaped_fits by auto. simpl.
    rewrite expand_map_plain by done. simpl.
    by rewrite !app_nil_l_s, !app_assoc_s.
  - rewrite expand_map_plain by done. simpl. by rewrite !app_nil_l_s.
Qed.

End Submit.

(** *** The configured databases *)

Lemma configured_snoc tags tag id :
  configured (tags ++ [tag]) id
  ↔ configured tags id ∨ tag_module tag = "mysql" ∧ tag_id tag = id.
Proof.
  unfold configured. split.
  - intros (t & [Hin| ->%list_elem_of_singleton]%elem_of_app & Hmod & Hid);
      [left|right]; eauto.
  - intros [(t & Hin & Hmod & Hid)|[Hmod Hid]].
    + exists t. rewrite elem_of_app. eauto.
    + exists tag. rewrite elem_of_app, list_elem_of_singleton. eauto.
Qed.

Lemma OnRehash_tags_invariant tags connections0 next :
  let st := OnRehash_tags tags connections0 next in
  (∀ id, (configured tags id → connections st !! id = None)
         ∧ (¬ configured tags id →
              connections st !! id = connections0 !! id))
  ∧ (∀ id, is_Some (conns st !! id) ↔ configured tags id)
  ∧ (∀ id conn, connections0 !! id = Some conn → configured tags id →
       conns st !! id = Some conn)
  ∧ (∀ id conn, connections0 !! id = None → conns st !! id = Some conn →
       (next ≤ conn < next_connection st)%nat
       ∧ AddService conn ∈ services st)
  ∧ (next ≤ next_connection st)%nat.
Proof.
  induction tags as [|tag tags IH] using rev_ind.
  { assert (∀ id, ¬ configured [] id) as Hnone.
    { by intros id (t & Hin%elem_of_nil & _). }
    simpl. refine (conj _ (conj _ (conj _ (conj _ _)))).
    - intros id. split; [by intros ?%Hnone|done].
    - intros id. rewrite lookup_empty. split; [by intros [? ?]|by intros ?%Hnone].
    - by intros id conn _ ?%Hnone.
    - intros id conn _. by rewrite lookup_empty.
    - done. }
  unfold OnRehash_tags in *. rewrite foldl_app. simpl.
  set (st := foldl rehash_tag _ tags) in *. simpl in IH.
  destruct IH as (Hleft & Hdom & Hkept & Hnew & Hnext).
  assert (∀ id, ¬ configured tags id → connections st !! id = connections0 !! id)
    as Hleft_no by (intros id; apply Hleft).
  assert (∀ id, configured tags id → connections st !! id = None)
    as Hleft_yes by (intros id; apply Hleft).
  clear Hleft. unfold rehash_tag.
  destruct (decide (tag_module tag ≠ "mysql")) as [Hother|Hmysql].
  { assert (∀ id, configured (tags ++ [tag]) id ↔ configured tags id) as Hsame.
    { intros id. rewrite configured_snoc. intuition (subst; try done; try congruence). }
    refine (conj _ (conj _ (conj _ (conj _ _)))); [| | | |done].
    - intros id. rewrite Hsame. split; [apply Hleft_yes|apply Hleft_no].
    - intros id. by rewrite Hsame.
    - intros id conn Hid ?%Hsame. by apply Hkept.
    - done. }
  apply dec_stable in Hmysql.
  assert (∀ id, configured (tags ++ [tag]) id
                ↔ configured tags id ∨ tag_id tag = id) as Hconf.
  { intros id. rewrite configured_snoc. intuition (subst; try done; try congruence). }
  destruct (connections st !! tag_id tag) as [curr|] eqn:Hcurr.
  - (* the database is connected: it is kept *)
    assert (¬ configured tags (tag_id tag)) as Hfresh.
    { intros Hc%Hleft_yes. congruence. }
    assert (connections0 !! tag_id tag = Some curr) as Hcurr0.
    { by rewrite <- Hleft_no. }
    assert (conns st !! tag_id tag = None) as Hfree.
    { apply eq_None_not_Some. by rewrite Hdom. }
    unfold map_insert_new. rewrite Hfree. simpl.
    refine (conj _ (conj _ (conj _ (conj _ _)))); [| | | |done].
    + intros id. rewrite Hconf. split.
      * intros [Hc| <-]; [|by rewrite lookup_delete_eq].
        rewrite lookup_delete_ne by (by intros <-). by apply Hleft_yes.
      * intros Hno. rewrite lookup_delete_ne by intuition (subst; try done; try congruence).
        apply Hleft_no. intuition (subst; try done; try congruence).
    + intros id. rewrite Hconf, lookup_insert_is_Some, Hdom.
      destruct (decide (tag_id tag = id)); intuition (subst; try done; try congruence).
    + intros id conn Hid [Hc| <-]%Hconf.
      * rewrite lookup_insert_ne by (by intros <-). by apply Hkept.
      * rewrite lookup_insert_eq. congruence.
    + intros id conn Hid [[<- _]|[_ Hc]]%lookup_insert_Some; [congruence|].
      by apply (Hnew id).
  - (* the database is not connected, or was taken over by an earlier tag *)
    unfold map_insert_new.
    destruct (conns st !! tag_id tag) as [old|] eqn:Hold; simpl.
    + assert (configured tags (tag_id tag)) as Hdup.
      { apply Hdom. by eexists. }
      assert (∀ id, configured (tags ++ [tag]) id ↔ configured tags id)
        as Hsame.
      { intros id. rewrite Hconf. intuition (subst; try done; try congruence). }
      refine (conj _ (conj _ (conj _ (conj _ _)))); [| | | |lia].
      * intros id. rewrite Hsame. split; [apply Hleft_yes|apply Hleft_no].
      * intros id. by rewrite Hsame.
      * intros id conn Hid ?%Hsame. by apply Hkept.
      * intros id conn Hid Hconn.
        destruct (Hnew id conn Hid Hconn) as [? ?].
        split; [lia|]. rewrite elem_of_app. by left.
    + assert (¬ configured tags (tag_id tag)) as Hfresh.
      { intros Hc%Hdom. rewrite Hold in Hc. by destruct Hc. }
      assert (connections0 !! tag_id tag = None) as Hcurr0.
      { by rewrite <- Hleft_no. }
      refine (conj _ (conj _ (conj _ (conj _ _)))); [| | | |lia].
      * intros id. rewrite Hconf. split.
        -- intros [Hc| <-]; [by apply Hleft_yes|done].
        -- intros Hno. apply Hleft_no. intuition (subst; try done; try congruence).
      * intros id. rewrite Hconf, lookup_insert_is_Some, Hdom.
        destruct (decide (tag_id tag = id)); intuition (subst; try done; try congruence).
      * intros id conn Hid [Hc| <-]%Hconf; [|congruence].
        rewrite lookup_insert_ne by (by intros <-). by apply Hkept.
      * intros id conn Hid [[_ <-]|[_ Hc]]%lookup_insert_Some.
        -- split; [lia|]. rewrite elem_of_app. right.
           by apply list_elem_of_singleton.
        -- destruct (Hnew id conn Hid Hc) as [? ?].
           split; [lia|]. rewrite elem_of_app. by left.
Qed.

(** X20: the first loop of [OnRehash] sorts the databases by the
    configuration. The new map [conns] has exactly the ids of the MySQL
    [<database>] tags. A configured id that was connected keeps its
    connection object; a configured id that was not gets a connection
    object created during this rehash and announced with [AddService].
    What stays in [connections], to be withdrawn, is exactly the connected
    databases whose id is not configured any more. *)
Theorem OnRehash_tags_sorts_connections tags connections0 next :
  let st := OnRehash_tags tags connections0 next in
  (∀ id, is_Some (conns st !! id) ↔ configured tags id)
  ∧ (∀ id conn, connections0 !! id = Some conn → configured tags id →
       conns st !! id = Some conn ∧ connections st !! id = None)
  ∧ (∀ id conn, connections0 !! id = None → conns st !! id = Some conn →
       (next ≤ conn < next_connection st)%nat
       ∧ AddService conn ∈ services st)
  ∧ (∀ id conn, connections st !! id = Some conn ↔
       connections0 !! id = Some conn ∧ ¬ configured tags id).
Proof.
  destruct (OnRehash_tags_invariant tags connections0 next)
    as (Hleft & Hdom & Hkept & Hnew & _).
  simpl. split; [done|]. split; [|split; [done|]].
  - intros id conn Hconn Hc. split; [by apply Hkept|by apply Hleft].
  - intros id conn. split.
    + intros Hconn. assert (¬ configured tags id) as Hno.
      { intros Hc%Hleft. congruence. }
      split; [|done]. destruct (Hleft id) as [_ <-]; done.
    + intros [Hconn Hno]. destruct (Hleft id) as [_ ->]; done.
Qed.

(** *** The properties at work *)

(** Five passes over the three queued jobs: the fourth pass reads outside
    the queue. *)
Lemma scan_ends_out_of_range_witness :
  ∃ s, scan_passes 5 7 (scan_start Examples.scan_demo) = OutOfRange s
       ∧ j s = 4294967295
       ∧ at_index (qq (module s)) (j s) = None
       ∧ qq (module s) = filter (λ i, c i ≠ 7%nat) (qq Examples.scan_demo).
Proof.
  destruct (scan_ends_out_of_range 7 Examples.scan_demo 5) as [_ Hout].
  - vm_compute. reflexivity.
  - apply Hout. simpl. lia.
Defined.

Lemma query_answered_once_witness :
  ∃ res w,
    DoBlockingQuery Examples.select_run = Some res
    ∧ run_steps {| sql := Examples.no_jobs; in_flight := None |}
        [DoSubmit {| addr := 1; creator := 9 |} "SELECT nick, host" 7;
         DoTake; DoFinish res; DoNotify] = Some w
    ∧ callbacks (sql w) = [OnResult {| addr := 1; creator := 9 |} res].
Proof.
  destruct (DoBlockingQuery Examples.select_run) as [res|] eqn:Hres;
    [|vm_compute in Hres; discriminate].
  destruct (query_answered_once Examples.select_run res
              {| addr := 1; creator := 9 |} "SELECT nick, host" 7%nat
              Examples.no_jobs eq_refl Hres)
    as (w & Hrun & _ & _ & _ & Hcb).
  exists res, w. split; [done|]. split; [done|]. exact Hcb.
Defined.

Lemma select_result_holds_fetched_rows_witness :
  ∃ r,
    MySQLresult_new (Some Examples.two_users) (-1) = Some r
    ∧ Rows r = 2
    ∧ GetValue r 1 0 = Some (SQLEntry_of "bob")
    ∧ GetValue r 1 1 = Some SQLEntry_null
    ∧ GetValue r 2 0 = Some SQLEntry_null.
Proof.
  destruct (select_result_holds_fetched_rows Examples.two_users
              (λ k, match k with
                    | O => Some "nick" | 1%nat => Some "host" | _ => None
                    end) (-1))
    as (r & Hnew & Hrows & Hin & Hout);
    [lia|simpl; lia|reflexivity|simpl; lia|].
  exists r. split; [done|]. split; [done|].
  split; [|split].
  - apply (Hin 1%nat
             (λ k, match k with O => Some "bob" | _ => None end));
      [reflexivity|simpl; lia].
  - apply (Hin 1%nat
             (λ k, match k with O => Some "bob" | _ => None end) 1);
      [reflexivity|simpl; lia].
  - apply Hout. rewrite Hrows. simpl. lia.
Defined.

Lemma select_result_column_names_witness :
  ∃ r,
    MySQLresult_new (Some Examples.two_users) (-1) = Some r
    ∧ length (GetCols r) = 2%nat
    ∧ GetCols r !! 1%nat = Some "host".
Proof.
  destruct (select_result_column_names Examples.two_users
              (λ k, match k with
                    | O => Some "nick" | 1%nat => Some "host" | _ => None
                    end) (-1))
    as (r & Hnew & _ & Hcols);
    [lia|simpl; lia|reflexivity|simpl; lia|].
  destruct Hcols as [Hlen Hnames]; [done|].
  exists r. split; [done|]. split; [done|].
  apply (Hnames 1%nat). simpl. lia.
Defined.

Lemma submit_list_weaves_witness :
  submit_list 514 Examples.escape_quotes {| addr := 1; creator := 9 |}
    "a='?' b=? c=?" ["x'y"; "z"] 7 Examples.no_jobs
  = Some (submit {| addr := 1; creator := 9 |} "a='x\'y' b=z c=" 7
            Examples.no_jobs).
Proof.
  apply (submit_list_weaves 514 Examples.escape_quotes
           {| addr := 1; creator := 9 |} ["a='"; "' b="; " c="; ""]
           ["x'y"; "z"] 7%nat Examples.no_jobs).
  - simpl. lia.
  - done.
  - repeat constructor; done.
  - intros [|[|k]] parm Hk [= <-]; vm_compute; reflexivity.
Defined.

Lemma submit_list_overruns_buffer_witness :
  submit_list 4 Examples.escape_quotes {| addr := 1; creator := 9 |}
    "a=?" ["it's"] 7 Examples.no_jobs = None.
Proof.
  apply (submit_list_overruns_buffer 4 Examples.escape_quotes
           {| addr := 1; creator := 9 |} "a=" "" "it's" [] 7%nat
           Examples.no_jobs).
  - repeat split; done.
  - vm_compute. discriminate.
Defined.

Lemma submit_map_replaces_name_witness :
  submit_map 514 Examples.escape_quotes Examples.isalnum_C
    {| addr := 1; creator := 9 |} "n='$nick';" {["nick" := "o'neil"]} 7
    Examples.no_jobs
  = Some (submit {| addr := 1; creator := 9 |} "n='o\'neil';" 7
            Examples.no_jobs).
Proof.
  pose proof (submit_map_replaces_name 514 Examples.escape_quotes
                Examples.isalnum_C {| addr := 1; creator := 9 |}
                "n='" "nick" "';" {["nick" := "o'neil"]} 7%nat
                Examples.no_jobs) as Hsubmit.
  vm_compute in Hsubmit |- *. apply Hsubmit.
  - repeat split; done.
  - repeat split; reflexivity.
  - reflexivity.
  - repeat split; done.
  - intros parm [= <-]. reflexivity.
Defined.

End MySQLMore.
